(** * feediverse: the fetch / filter / dedupe / publish pipeline

    A shallow embedding of [feediverse.py].  Python objects become Rocq
    data, the libraries the script calls (feedparser, dateutil, requests,
    Mastodon.py, BeautifulSoup, [str.format], [random]) are gathered in one
    record of oracles, and the statements of [main] that can raise thread an
    explicit result type. *)

From Stdlib Require Import NArith ZArith Lia Ascii String List Sorted Permutation.
From Stdlib Require Import DecimalString DecimalN.
From stdpp Require Import base option list gmap strings fin_maps.

Local Open Scope N_scope.
Local Open Scope nat_scope.

(** ** Python values *)

(** An aware [datetime]: the instant in microseconds counted from
    [datetime(MINYEAR, 1, 1, 0, 0, 0, 0, timezone.utc)], the default of
    [read_state].  Comparison of aware datetimes is comparison of instants. *)
Definition datetime : Type := N.

Definition MINYEAR_utc : datetime := 0%N.

(** The exceptions that leave the script; none of them is caught
    ([read_state] catches [FileNotFoundError] only). *)
Inductive exn : Type :=
| TypeError
| ValueError
| AttributeError
| KeyError
| ParserError
| FeedError
| FormatError
| RequestError
| MastodonError.

Inductive result (A : Type) : Type :=
| Ok (a : A)
| Raise (e : exn).
Arguments Ok {A} a.
Arguments Raise {A} e.

#[global] Instance result_ret : MRet result := λ A a, Ok a.

#[global] Instance result_bind : MBind result := λ A B k r,
  match r with
  | Ok a => k a
  | Raise e => Raise e
  end.

Definition of_option {A : Type} (e : exn) (o : option A) : result A :=
  match o with
  | Some a => Ok a
  | None => Raise e
  end.

(** A list comprehension whose condition can raise. *)
Fixpoint filter_r {A : Type} (p : A → result bool) (l : list A) : result (list A) :=
  match l with
  | [] => Ok []
  | x :: l' =>
      b ← p x;
      rest ← filter_r p l';
      Ok (if (b : bool) then x :: rest else rest)
  end.

(** [for x in l: yield f(x)], run to its end or to the first exception. *)
Fixpoint map_r {A B : Type} (f : A → result B) (l : list A) : result (list B) :=
  match l with
  | [] => Ok []
  | x :: l' =>
      y ← f x;
      rest ← map_r f l';
      Ok (y :: rest)
  end.

(** A [str] is kept as the bytes of its UTF-8 encoding.  Equality, the
    substring test and the replacement of an ASCII character read the same
    on the bytes as on the characters; length and slicing do not, and count
    characters: a character is a byte that is not a continuation byte
    ([10xxxxxx]), with the continuation bytes that follow it. *)
Definition is_continuation (c : ascii) : bool :=
  (128 <=? nat_of_ascii c) && (nat_of_ascii c <? 192).

(** [len(s)]. *)
Fixpoint str_len (s : string) : nat :=
  match s with
  | EmptyString => 0
  | String c s' => (if is_continuation c then 0 else 1) + str_len s'
  end.

(** [s[:n]]: the first [n] characters, each with its continuation bytes. *)
Fixpoint str_take (n : nat) (s : string) : string :=
  match s with
  | EmptyString => EmptyString
  | String c s' =>
      if is_continuation c then String c (str_take n s')
      else match n with
           | 0 => EmptyString
           | S n' => String c (str_take n' s')
           end
  end.

(** [s[n:]]: what [s[:n]] leaves. *)
Fixpoint str_drop (n : nat) (s : string) : string :=
  match s with
  | EmptyString => EmptyString
  | String c s' =>
      if is_continuation c then str_drop n s'
      else match n with
           | 0 => s
           | S n' => str_drop n' s'
           end
  end.

(** A string that begins at a character, not in the middle of one. *)
Definition at_boundary (s : string) : Prop :=
  match s with
  | EmptyString => True
  | String c _ => is_continuation c = false
  end.

(** ** The dedupe ledger: [update_dupes] *)

(** [update_dupes(dupes, new)] on a list: [del dupes[0]] when the list is
    already longer than 50, then [dupes.append(new)]. *)
Definition update_dupes (dupes : list string) (new : string) : list string :=
  (if 50 <? length dupes then drop 1 dupes else dupes) ++ [new].

(** A run of [update_dupes] calls on one list object. *)
Definition record_all (dupes : list string) (news : list string) : list string :=
  foldl update_dupes dupes news.

(** Fifty-odd distinct values for closed examples. *)
Definition sample_value (n : nat) : string :=
  String "v" (String (ascii_of_nat (48 + n / 10)) (String (ascii_of_nat (48 + n mod 10)) EmptyString)).

Definition sample_values (n : nat) : list string := sample_value <$> seq 1 n.

(** A ledger object as the script can hold one.  [read_state] builds the
    ledgers with [dict.update]; fed a JSON array of two-character strings
    it stores one-character strings as ledgers, so a ledger is a list or a
    string. *)
Inductive ledger : Type :=
| LList (l : list string)
| LStr (s : string).

(** [x in s] for two strings: [x] occurs in [s] as a substring. *)
Fixpoint str_contains (x s : string) : bool :=
  String.prefix x s ||
  match s with
  | EmptyString => false
  | String _ s' => str_contains x s'
  end.

(** [value in dupes]. *)
Definition ledger_contains (dupes : ledger) (value : string) : bool :=
  match dupes with
  | LList l => bool_decide (value ∈ l)
  | LStr s => str_contains value s
  end.

(** [update_dupes] on any ledger object: a string has neither item deletion
    nor [append]. *)
Definition update_dupes_obj (dupes : ledger) (new : string) : result ledger :=
  match dupes with
  | LList l => Ok (LList (update_dupes l new))
  | LStr s => Raise (if 50 <? str_len s then TypeError else AttributeError)
  end.

(** ** Feed entries *)

(** [time.struct_time], the type of [updated_parsed]: a tuple of integers,
    compared as Python compares tuples. *)
Definition struct_time : Type := list Z.

Fixpoint tuple_leb (a b : list Z) : bool :=
  match a, b with
  | [], _ => true
  | _ :: _, [] => false
  | x :: a', y :: b' => (x <? y)%Z || ((x =? y)%Z && tuple_leb a' b')
  end.

(** An entry of [feed.entries] as feedparser hands it over.  A key that
    the feed did not give is [None]: reading it as an attribute ([id],
    [link], [links], [title]) raises [AttributeError], reading it as an
    item ([updated]) raises [KeyError], and [get] returns its default
    ([summary], [comments]).  [raw_tags] holds the [term] of each tag
    ([[]] when the key is absent; a term may be [None]), [raw_content] the
    [value] of each content block (no block: the key is absent).
    [raw_updated_parsed] is [None] when feedparser could not read the
    date. *)
Record raw_entry : Type := {
  raw_id : option string;
  raw_link : option string;
  raw_links : option (list (list (string * string)));
  raw_title : option string;
  raw_tags : list (option string);
  raw_summary : option string;
  raw_content : list (option string);
  raw_comments : option string;
  raw_updated : option string;
  raw_updated_parsed : option struct_time
}.

(** The dictionary [get_entry] returns. *)
Record entry : Type := {
  e_url : string;
  e_link : string;
  e_links : list (list (string * string));
  e_comments : string;
  e_title : string;
  e_summary : string;
  e_content : string;
  e_hashtags : string;
  e_images : option (list string);
  e_updated : datetime
}.

(** The keys of an entry whose value is a string: the fields a run
    dedupes on here.  The ledgers and the state file hold strings; a run
    with [--dedupe links], [images] or [updated] records lists, [None] or
    datetimes, and one with a name that is no key of an entry raises
    [KeyError] at line 79: both are left out. *)
Inductive text_field : Type :=
| F_url | F_link | F_comments | F_title | F_summary | F_content | F_hashtags.

(** [entry[dedupe_field]]. *)
Definition entry_field (e : entry) (f : text_field) : string :=
  match f with
  | F_url => e_url e
  | F_link => e_link e
  | F_comments => e_comments e
  | F_title => e_title e
  | F_summary => e_summary e
  | F_content => e_content e
  | F_hashtags => e_hashtags e
  end.

(** ** The outside world *)

(** The answer of [requests.get]: its body and its [Content-Type] header. *)
Record response : Type := {
  resp_content : string;
  resp_content_type : string
}.

(** What the script asks of its libraries and of the network.  An oracle
    that answers [None] or [Raise] stands for a call that raises.
    - [feedparser_parse url] is [feedparser.parse(url).entries];
    - [utcnow url] is the clock read by [get_feed] for that URL;
    - [dateutil_parse] is [dateutil.parser.parse], [isoformat] is
      [datetime.isoformat]; [dateutil_naive s] tells that the datetime
      parsed from [s] carries no timezone, so that comparing it with an
      aware one raises [TypeError] (the watermarks of a state file, which
      [isoformat] wrote with their offset, are read as aware);
    - [str_format template entry] is [template.format( **entry )];
    - [cleanup] is the script's [cleanup]: [get_text] of BeautifulSoup,
      four [re.sub] calls and [strip]; it is kept opaque, nothing proved
      below depends on the text it returns;
    - [soup_img_src html] lists, in document order, the [src] attribute of
      every [img] tag BeautifulSoup finds in [html] ([None]: the tag has
      no [src]);
    - [requests_get], [media_post] and [status_post] are the HTTP client and
      the two Mastodon calls;
    - [random_draw k] is the raw output of the generator at its [k]-th
      use. *)
Record World : Type := {
  feedparser_parse : string → result (list raw_entry);
  utcnow : string → datetime;
  dateutil_parse : string → option datetime;
  isoformat : datetime → string;
  str_format : string → entry → result string;
  cleanup : string → string;
  soup_img_src : string → list (option string);
  requests_get : string → option response;
  media_post : response → option nat;
  status_post : string → list nat → bool;
  random_draw : nat → nat;
  dateutil_naive : string → bool
}.

(** ** The entry normalizer: [find_images] and [get_entry] *)

(** Truth value of a string: [if html], [if url]. *)
Definition str_truthy (s : string) : bool :=
  match s with
  | EmptyString => false
  | String _ _ => true
  end.

(** The loop of [find_images]: [if url and url not in urls: urls.append(url)]. *)
Definition collect_url (urls : list string) (src : option string) : list string :=
  match src with
  | Some url => if str_truthy url && negb (bool_decide (url ∈ urls)) then urls ++ [url] else urls
  | None => urls
  end.

(** [find_images(html)]: a bare [return], that is [None], when [html] is
    empty; the list of distinct image sources otherwise. *)
Definition find_images (w : World) (html : string) : option (list string) :=
  if negb (str_truthy html) then None
  else Some (foldl collect_url [] (soup_img_src w html)).

(** [s.replace(old, new)] for one-character [old]; [new] is any string. *)
Fixpoint str_replace (old : ascii) (new : string) (s : string) : string :=
  match s with
  | EmptyString => EmptyString
  | String c s' =>
      if Ascii.eqb c old then new +:+ str_replace old new s'
      else String c (str_replace old new s')
  end.

(** ['#{}'.format(tag['term'].replace(' ', '_').replace('.', '').replace('-', ''))]. *)
Definition hashtag (term : string) : string :=
  "#" +:+ str_replace "-" "" (str_replace "." "" (str_replace " " "_" term)).

(** What the three [replace] calls make of one character of a term. *)
Definition tag_char (c : ascii) : list ascii :=
  if Ascii.eqb c " " then ["_"%char]
  else if Ascii.eqb c "." then []
  else if Ascii.eqb c "-" then []
  else [c].

(** [get_entry(entry)], in the order of the source: the loop over the
    tags (a term that is [None] has no [replace]), the three [get], the
    attribute [id], then the dictionary, whose values are computed one
    after the other.  A datetime without timezone is stored as it is
    parsed; [get_feed] has compared it with the clock before. *)
Definition get_entry (w : World) (raw : raw_entry) : result entry :=
  hashtags ← map_r (λ term, of_option AttributeError (hashtag <$> term)) (raw_tags raw);
  let summary := default "" (raw_summary raw) in
  let content :=
    match raw_content raw with
    | [] => ""
    | block :: _ => cleanup w (default "" block)
    end in
  let comments := default "" (raw_comments raw) in
  url ← of_option AttributeError (raw_id raw);
  link ← of_option AttributeError (raw_link raw);
  links ← of_option AttributeError (raw_links raw);
  title ← of_option AttributeError (raw_title raw);
  text ← of_option KeyError (raw_updated raw);
  updated ← of_option ParserError (dateutil_parse w text);
  Ok {| e_url := url;
        e_link := link;
        e_links := links;
        e_comments := comments;
        e_title := cleanup w title;
        e_summary := cleanup w summary;
        e_content := content;
        e_hashtags := String.concat " " hashtags;
        e_images := find_images w summary;
        e_updated := updated |}.

(** ** The fetcher and filter: [get_feed] *)

(** The key of the sort, [e.updated_parsed], for an entry that has one. *)
Definition sort_key (e : raw_entry) : struct_time :=
  default [] (raw_updated_parsed e).

(** A stable sort has one possible result, computed here by insertion. *)
Fixpoint insert_by_key (e : raw_entry) (l : list raw_entry) : list raw_entry :=
  match l with
  | [] => [e]
  | x :: l' =>
      if tuple_leb (sort_key e) (sort_key x) then e :: x :: l'
      else x :: insert_by_key e l'
  end.

Definition sort_by_key (l : list raw_entry) : list raw_entry :=
  foldr insert_by_key [] l.

(** [entries.sort(key=lambda e: e.updated_parsed)].  [list.sort] is stable
    and compares the keys with [<]: in a list of two entries or more every
    key is compared with another one, and comparing [None] raises
    [TypeError]; a list of one entry or none is left as it is, whatever
    its key. *)
Definition sort_entries (l : list raw_entry) : result (list raw_entry) :=
  if (length l <=? 1) || forallb (λ e, bool_decide (is_Some (raw_updated_parsed e))) l
  then Ok (sort_by_key l)
  else Raise TypeError.

(** [dateutil.parser.parse(e['updated'])], as an operand of a comparison
    with an aware datetime: the item may be missing, the parser may raise,
    and a datetime without timezone cannot be compared. *)
Definition parsed_updated (w : World) (e : raw_entry) : result datetime :=
  text ← of_option KeyError (raw_updated e);
  d ← of_option ParserError (dateutil_parse w text);
  if dateutil_naive w text then Raise TypeError else Ok d.

(** The body of [get_feed] down to the sort: what runs when [main] asks the
    generator for its first entry.  A [datetime] is always true, so
    [if last_update] is false only for a caller that passes [None];
    [main] never does. *)
Definition select_entries (w : World) (feed_url : string) (last_update : option datetime)
    : result (list raw_entry) :=
  entries ← feedparser_parse w feed_url;
  let now := utcnow w feed_url in
  entries ← filter_r (λ e, d ← parsed_updated w e; Ok (d <=? now)%N) entries;
  entries ← match last_update with
            | Some last => filter_r (λ e, d ← parsed_updated w e; Ok (last <? d)%N) entries
            | None => Ok entries
            end;
  sort_entries entries.

(** The loop [for entry in entries: yield get_entry(entry)] as [main]
    drives it: [get_entry] runs when the generator is resumed, so the
    entries built before [get_entry] first raises are handed to the loop
    of [main] one by one, and the exception comes when the loop asks for
    the next one. *)
Fixpoint yielded (w : World) (raws : list raw_entry) : list entry * option exn :=
  match raws with
  | [] => ([], None)
  | raw :: rest =>
      match get_entry w raw with
      | Raise ex => ([], Some ex)
      | Ok e => let '(entries, stop) := yielded w rest in (e :: entries, stop)
      end
  end.

(** [get_feed(feed_url, last_update)], the generator read to its end. *)
Definition get_feed (w : World) (feed_url : string) (last_update : option datetime)
    : result (list entry) :=
  entries ← select_entries w feed_url last_update;
  map_r (get_entry w) entries.

(** The instant [dateutil.parser.parse] reads in [e['updated']], for an
    entry whose date parses. *)
Definition timestamp (w : World) (e : raw_entry) : datetime :=
  default MINYEAR_utc (raw_updated e ≫= dateutil_parse w).

(** An entry whose date the two filters can read: the item is there, it
    parses, and to a datetime that carries its timezone. *)
Definition dated (w : World) (e : raw_entry) : Prop :=
  ∃ text d, raw_updated e = Some text ∧ dateutil_parse w text = Some d ∧
            dateutil_naive w text = false.




(** An entry that has every key [get_entry] reads as an attribute, and
    whose tags all have a term. *)
Definition complete (e : raw_entry) : Prop :=
  is_Some (raw_id e) ∧ is_Some (raw_link e) ∧ is_Some (raw_links e) ∧
  is_Some (raw_title e) ∧ Forall is_Some (raw_tags e).

(** ** The run state and its file: [save_state] and [read_state] *)

(** [state['dupecheck']]: the [defaultdict(list)] of [read_state], or the
    one ledger that [main] stores under that key once a feed is done. *)
Inductive dupecheck_obj : Type :=
| DMap (m : gmap string ledger)
| DLedger (d : ledger).

(** The dictionary [state]. *)
Record state : Type := {
  st_updated : gmap string datetime;
  st_dupecheck : dupecheck_obj
}.

(** The JSON document of the state file, restricted to the shapes
    [save_state] writes: an object whose key [updated], when present, maps
    feed URLs to strings, and whose key [dupecheck], when present, holds
    what [state['dupecheck']] held. *)
Record state_doc : Type := {
  doc_updated : option (gmap string string);
  doc_dupecheck : option dupecheck_obj
}.

(** [save_state(state, state_file)]: the document written to the file. *)
Definition save_state (w : World) (st : state) : state_doc :=
  {| doc_updated := Some (isoformat w <$> st_updated st);
     doc_dupecheck := Some (st_dupecheck st) |}.

(** [{k: dateutil.parser.parse(v) for k, v in st["updated"].items()}]. *)
Definition parse_timestamps (w : World) (m : gmap string string) : result (gmap string datetime) :=
  if bool_decide (map_Forall (λ _ v, is_Some (dateutil_parse w v)) m)
  then Ok (omap (dateutil_parse w) m)
  else Raise ParserError.

(** [d.update(seq)] for a sequence of strings: each element must unpack
    into a key and a value, so it must have exactly two characters; the
    first is the key and the second, a string, the value. *)
Fixpoint update_from_strings (m : gmap string ledger) (l : list string) : result (gmap string ledger) :=
  match l with
  | [] => Ok m
  | s :: l' =>
      if str_len s =? 2
      then update_from_strings (<[str_take 1 s := LStr (str_drop 1 s)]> m) l'
      else Raise ValueError
  end.

(** [state["dupecheck"].update(st["dupecheck"])]. *)
Definition dict_update (m : gmap string ledger) (other : dupecheck_obj) : result (gmap string ledger) :=
  match other with
  | DMap m' => Ok (m' ∪ m)
  | DLedger (LList l) => update_from_strings m l
  | DLedger (LStr s) => if str_truthy s then Raise ValueError else Ok m
  end.

(** The [if "updated" in st] block of [read_state]. *)
Definition load_updated (w : World) (doc : state_doc) : result (gmap string datetime) :=
  match doc_updated doc with
  | Some m => parse_timestamps w m
  | None => Ok ∅
  end.

(** The [if "dupecheck" in st] block of [read_state]. *)
Definition load_dupecheck (doc : state_doc) : result (gmap string ledger) :=
  match doc_dupecheck doc with
  | Some other => dict_update ∅ other
  | None => Ok ∅
  end.

(** [read_state(state_file)]; [None] is a state file that does not exist. *)
Definition read_state (w : World) (file : option state_doc) : result state :=
  match file with
  | None => Ok {| st_updated := ∅; st_dupecheck := DMap ∅ |}
  | Some doc =>
      u ← load_updated w doc;
      d ← load_dupecheck doc;
      Ok {| st_updated := u; st_dupecheck := DMap d |}
  end.


(** [state['updated'][url]] read through the [defaultdict]. *)
Definition watermark (u : gmap string datetime) (url : string) : datetime :=
  default MINYEAR_utc (u !! url).

(** [state['dupecheck'][url]] read through the [defaultdict]. *)
Definition ledger_of (m : gmap string ledger) (url : string) : ledger :=
  default (LList []) (m !! url).

(** ** The publish pipeline: the feed loop of [main] *)

(** The command line. [dedupe = None] is the empty default of [--dedupe]. *)
Record args : Type := {
  dry_run : bool;
  verbose : bool;
  delay : bool;
  dedupe : option text_field
}.

(** One element of [config['feeds']]; an absent [include_images] key reads
    as [False]. *)
Record feed : Type := {
  f_url : string;
  f_template : string;
  f_include_images : bool
}.

(** What a run does to the outside, in order.  [StatusPost text medias ok]
    is a call of [masto.status_post]; [ok] tells whether it returned. *)
Inductive event : Type :=
| Print (text : string)
| PrintFetching (url : string) (since : datetime)
| PrintSkip (text : string) (field : text_field)
| PrintDelay (seconds : nat)
| Sleep (seconds : nat)
| HttpGet (url : string)
| MediaPost (resp : response)
| StatusPost (text : string) (medias : list nat) (ok : bool)
| SaveState (doc : state_doc).

(** The variables of the loop over one feed's entries. *)
Record loop : Type := {
  newest_post : datetime;
  dupes : ledger;
  out : list event;
  draws : nat
}.

Definition emit (ev : event) (s : loop) : loop :=
  {| newest_post := newest_post s; dupes := dupes s;
     out := out s ++ [ev]; draws := draws s |}.

(** [feed['template'].format( **entry )[:499]]. *)
Definition entry_text (w : World) (template : string) (e : entry) : result string :=
  rendered ← str_format w template e;
  Ok (str_take 499 rendered).

(** [random.randrange(start, stop)] from one raw draw. *)
Definition randrange (start stop raw : nat) : nat :=
  start + raw mod (stop - start).

(** Truth value of [entry['images']]: [None] and the empty list are false. *)
Definition images_truthy (images : option (list string)) : bool :=
  match images with
  | Some (_ :: _) => true
  | _ => false
  end.

(** The loop over [entry['images'][:4]]. *)
Fixpoint upload_images (w : World) (images : list string) (medias : list nat) (s : loop)
    : loop * result (list nat) :=
  match images with
  | [] => (s, Ok medias)
  | image :: rest =>
      let s := emit (HttpGet image) s in
      match requests_get w image with
      | None => (s, Raise RequestError)
      | Some resp =>
          let s := emit (MediaPost resp) s in
          match media_post w resp with
          | None => (s, Raise MastodonError)
          | Some media => upload_images w rest (medias ++ [media]) s
          end
      end
  end.

(** Lines 85 to 101: attach images, post, then the optional delay. *)
Definition publish (w : World) (a : args) (f : feed) (text : string) (e : entry) (s : loop)
    : loop * option exn :=
  let '(s, uploaded) :=
    if f_include_images f && images_truthy (e_images e)
    then upload_images w (take 4 (default [] (e_images e))) [] s
    else (s, Ok []) in
  match uploaded with
  | Raise ex => (s, Some ex)
  | Ok medias =>
      let ok := if dry_run a then true else status_post w text medias in
      let s := if dry_run a then s else emit (StatusPost text medias ok) s in
      if ok then
        if delay a then
          let d := randrange 10 30 (random_draw w (draws s)) in
          let s := emit (Sleep d) (emit (PrintDelay d) s) in
          ({| newest_post := newest_post s; dupes := dupes s;
              out := out s; draws := S (draws s) |}, None)
        else (s, None)
      else (s, Some MastodonError)
  end.

(** The body of [for entry in get_feed(...)], lines 68 to 101.  The second
    component is the exception that ended it, if any; [continue] and the
    end of the body both give [None]. *)
Definition process_entry (w : World) (a : args) (f : feed) (e : entry) (s : loop)
    : loop * option exn :=
  let s := {| newest_post := N.max (newest_post s) (e_updated e);
              dupes := dupes s; out := out s; draws := draws s |} in
  match entry_text w (f_template f) e with
  | Raise ex => (s, Some ex)
  | Ok text =>
      if dry_run a then (emit (Print text) s, None)
      else
        let s := if verbose a then emit (Print text) s else s in
        match dedupe a with
        | Some field =>
            if ledger_contains (dupes s) (entry_field e field) then
              (if verbose a then emit (PrintSkip text field) s else s, None)
            else
              match update_dupes_obj (dupes s) (entry_field e field) with
              | Raise ex => (s, Some ex)
              | Ok recorded =>
                  publish w a f text e
                    {| newest_post := newest_post s; dupes := recorded;
                       out := out s; draws := draws s |}
              end
        | None => publish w a f text e s
        end
  end.

(** The loop over the entries of one feed. *)
Fixpoint run_entries (w : World) (a : args) (f : feed) (entries : list entry) (s : loop)
    : loop * option exn :=
  match entries with
  | [] => (s, None)
  | e :: rest =>
      match process_entry w a f e s with
      | (s', None) => run_entries w a f rest s'
      | (s', Some ex) => (s', Some ex)
      end
  end.

(** The loop [for entry in get_feed(...)] once the generator has sorted
    its entries: the entries [get_entry] builds go through the body one by
    one; an exception of the body ends the loop, and so does the exception
    of [get_entry], after the entries built before it have been
    processed. *)
Definition run_yielded (w : World) (a : args) (f : feed) (raws : list raw_entry) (s : loop)
    : loop * option exn :=
  let '(entries, stop) := yielded w raws in
  let '(s, r) := run_entries w a f entries s in
  (s, match r with
      | Some ex => Some ex
      | None => stop
      end).

(** The script at a point of its run: the dictionary [state], the content
    of the state file, what it has done so far and how many random numbers
    it has drawn. *)
Record machine : Type := {
  mem : state;
  file : option state_doc;
  log : list event;
  ndraws : nat
}.

(** The body of [for feed in config['feeds']], lines 63 to 106.  Reading
    [state['updated'][url]] and [state['dupecheck'][url]] stores the
    default of the [defaultdict] under a missing key; indexing a ledger by
    a URL is a [TypeError].  [dupes] is the very list held by
    [state['dupecheck']], so what [update_dupes] appends is in [state] at
    once. *)
Definition run_feed (w : World) (a : args) (f : feed) (m : machine) : machine * option exn :=
  let url := f_url f in
  let newest := watermark (st_updated (mem m)) url in
  let updated1 := <[url := newest]> (st_updated (mem m)) in
  match st_dupecheck (mem m) with
  | DLedger d =>
      ({| mem := {| st_updated := updated1; st_dupecheck := DLedger d |};
          file := file m; log := log m; ndraws := ndraws m |}, Some TypeError)
  | DMap dm =>
      let dupes0 := ledger_of dm url in
      let log1 := if verbose a then log m ++ [PrintFetching url newest] else log m in
      match select_entries w url (Some newest) with
      | Raise ex =>
          ({| mem := {| st_updated := updated1; st_dupecheck := DMap (<[url := dupes0]> dm) |};
              file := file m; log := log1; ndraws := ndraws m |}, Some ex)
      | Ok raws =>
          let '(s, r) :=
            run_yielded w a f raws
              {| newest_post := newest; dupes := dupes0; out := log1; draws := ndraws m |} in
          let mem_loop :=
            {| st_updated := updated1; st_dupecheck := DMap (<[url := dupes s]> dm) |} in
          match r with
          | Some ex =>
              ({| mem := mem_loop; file := file m; log := out s; ndraws := draws s |}, Some ex)
          | None =>
              if dry_run a then
                ({| mem := mem_loop; file := file m; log := out s; ndraws := draws s |}, None)
              else
                let mem' :=
                  {| st_updated := <[url := newest_post s]> updated1;
                     st_dupecheck := DLedger (dupes s) |} in
                let doc := save_state w mem' in
                ({| mem := mem'; file := Some doc;
                    log := out s ++ [SaveState doc]; ndraws := draws s |}, None)
          end
      end
  end.

(** The loop over [config['feeds']]: an exception ends the run. *)
Fixpoint run_feeds (w : World) (a : args) (feeds : list feed) (m : machine) : machine * option exn :=
  match feeds with
  | [] => (m, None)
  | f :: rest =>
      match run_feed w a f m with
      | (m', None) => run_feeds w a rest m'
      | (m', Some ex) => (m', Some ex)
      end
  end.

(** [main()] from line 52 on, for a configuration file that exists: the
    feeds of the configuration and the content of the state file go in,
    the final machine and the uncaught exception, if any, come out.  When
    [read_state] raises there is no [state] yet and [mem] is left empty. *)
Definition main (w : World) (a : args) (feeds : list feed) (file0 : option state_doc)
    : machine * option exn :=
  match read_state w file0 with
  | Raise ex =>
      ({| mem := {| st_updated := ∅; st_dupecheck := DMap ∅ |};
          file := file0; log := []; ndraws := 0 |}, Some ex)
  | Ok st => run_feeds w a feeds {| mem := st; file := file0; log := []; ndraws := 0 |}
  end.

(** ** Reading a trace *)

(** The events that fetch or upload an image. *)
Definition is_image_event (ev : event) : bool :=
  match ev with
  | HttpGet _ | MediaPost _ => true
  | _ => false
  end.

(** The events that only write to the console. *)
Definition is_console (ev : event) : bool :=
  match ev with
  | Print _ | PrintFetching _ _ | PrintSkip _ _ | PrintDelay _ => true
  | _ => false
  end.

(** A reader of traces that checks the pause after a post: once a
    [status_post] has returned, the next two events must be the notice and
    the sleep of one delay, and that delay must be what [randrange(10, 30)]
    makes of the next unused draw.  The reader counts the draws used. *)
Inductive pause_state : Type :=
| Idle
| AwaitNotice
| AwaitSleep (d : nat).

Definition pause_step (w : World) (st : nat * pause_state) (ev : event)
    : option (nat * pause_state) :=
  match st, ev with
  | (n, Idle), StatusPost _ _ true => Some (n, AwaitNotice)
  | (n, Idle), _ => Some (n, Idle)
  | (n, AwaitNotice), PrintDelay d =>
      if d =? randrange 10 30 (random_draw w n) then Some (n, AwaitSleep d) else None
  | (n, AwaitSleep d), Sleep d' => if d =? d' then Some (S n, Idle) else None
  | _, _ => None
  end.

Fixpoint pause_run (w : World) (st : nat * pause_state) (l : list event)
    : option (nat * pause_state) :=
  match l with
  | [] => Some st
  | ev :: l' =>
      match pause_step w st ev with
      | Some st' => pause_run w st' l'
      | None => None
      end
  end.

(** A trace the reader accepts, having used [n] draws. *)
Definition well_paced (w : World) (l : list event) (n : nat) : Prop :=
  pause_run w (0, Idle) l = Some (n, Idle).

(** ** A small world for closed examples *)

(** A stand-in for the ISO-8601 codec: the instant as decimal microseconds. *)
Definition decimal_isoformat (d : datetime) : string :=
  NilEmpty.string_of_uint (N.to_uint d).

Definition decimal_parse (s : string) : option datetime :=
  N.of_uint <$> NilEmpty.uint_of_string s.

Definition field_of_name (name : string) : option text_field :=
  if String.eqb name "url" then Some F_url
  else if String.eqb name "link" then Some F_link
  else if String.eqb name "comments" then Some F_comments
  else if String.eqb name "title" then Some F_title
  else if String.eqb name "summary" then Some F_summary
  else if String.eqb name "content" then Some F_content
  else if String.eqb name "hashtags" then Some F_hashtags
  else None.

(** The fragment of [str.format] the examples use: literal text, the
    escapes for the two braces, and a replacement field that is the bare
    name of a text field.  [field] is the name being read, if any. *)
Fixpoint plain_format_from (e : entry) (field : option string) (template : string) : result string :=
  match template, field with
  | EmptyString, None => Ok EmptyString
  | EmptyString, Some _ => Raise FormatError
  | String c rest, Some name =>
      if Ascii.eqb c "}" then
        match field_of_name name with
        | Some fld =>
            tail ← plain_format_from e None rest;
            Ok (entry_field e fld +:+ tail)
        | None => Raise FormatError
        end
      else if Ascii.eqb c "{" then Raise FormatError
      else plain_format_from e (Some (name +:+ String c EmptyString)) rest
  | String c rest, None =>
      if Ascii.eqb c "{" then
        match rest with
        | String "{" rest' =>
            tail ← plain_format_from e None rest';
            Ok (String "{" tail)
        | _ => plain_format_from e (Some EmptyString) rest
        end
      else if Ascii.eqb c "}" then
        match rest with
        | String "}" rest' =>
            tail ← plain_format_from e None rest';
            Ok (String "}" tail)
        | _ => Raise FormatError
        end
      else
        tail ← plain_format_from e None rest;
        Ok (String c tail)
  end.

Definition plain_format (template : string) (e : entry) : result string :=
  plain_format_from e None template.

(** The Cyrillic letter de, two bytes in UTF-8, and an entry whose title
    is that letter 600 times. *)
Definition cyrillic_de : string :=
  String (ascii_of_nat 208) (String (ascii_of_nat 180) EmptyString).

Fixpoint str_times (n : nat) (s : string) : string :=
  match n with
  | 0 => EmptyString
  | S n' => s +:+ str_times n' s
  end.

Definition long_entry : entry :=
  {| e_url := "https://example.org/long"; e_link := "https://example.org/post";
     e_links := []; e_comments := ""; e_title := str_times 600 cyrillic_de;
     e_summary := ""; e_content := ""; e_hashtags := ""; e_images := None;
     e_updated := 1000000%N |}.

(** Two entries that share their link, one entry dated after the clock,
    one entry with an image in its summary, one whose date does not parse,
    two entries of one and the same second, one whose date carries no
    timezone, one without an id and one whose date feedparser could not
    read. *)
Definition sample_raw (id updated : string) (updated_parsed : struct_time) : raw_entry :=
  {| raw_id := Some id;
     raw_link := Some "https://example.org/post";
     raw_links := Some [];
     raw_title := Some "Hello";
     raw_tags := [Some "rocq prover"; Some "v9.3"];
     raw_summary := None;
     raw_content := [];
     raw_comments := None;
     raw_updated := Some updated;
     raw_updated_parsed := Some updated_parsed |}.

Definition raw_first : raw_entry :=
  sample_raw "https://example.org/1" "1000000" [2024; 1; 1; 0; 0; 1; 0; 1; 0]%Z.

Definition raw_second : raw_entry :=
  sample_raw "https://example.org/2" "2000000" [2024; 1; 1; 0; 0; 2; 0; 1; 0]%Z.

Definition raw_future : raw_entry :=
  sample_raw "https://example.org/3" "9000000" [2024; 1; 1; 0; 0; 9; 0; 1; 0]%Z.

Definition raw_pictured : raw_entry :=
  {| raw_id := Some "https://example.org/4";
     raw_link := Some "https://example.org/gallery";
     raw_links := Some [];
     raw_title := Some "Pictures";
     raw_tags := [];
     raw_summary := Some "<img src=a.png><img><img src=a.png><img src=b.png>";
     raw_content := [Some "<p>two pictures</p>"];
     raw_comments := None;
     raw_updated := Some "3000000";
     raw_updated_parsed := Some [2024; 1; 1; 0; 0; 3; 0; 1; 0]%Z |}.

Definition raw_undated : raw_entry :=
  sample_raw "https://example.org/5" "yesterday" [2024; 1; 1; 0; 0; 4; 0; 1; 0]%Z.

Definition raw_late : raw_entry :=
  sample_raw "https://example.org/6" "1900000" [2024; 1; 1; 0; 0; 1; 0; 1; 0]%Z.

Definition raw_early : raw_entry :=
  sample_raw "https://example.org/7" "1100000" [2024; 1; 1; 0; 0; 1; 0; 1; 0]%Z.

Definition raw_naive : raw_entry :=
  sample_raw "https://example.org/8" "01500000" [2024; 1; 1; 0; 0; 1; 0; 1; 0]%Z.

Definition raw_anonymous : raw_entry :=
  {| raw_id := None;
     raw_link := Some "https://example.org/post";
     raw_links := Some [];
     raw_title := Some "Hello";
     raw_tags := [];
     raw_summary := None;
     raw_content := [];
     raw_comments := None;
     raw_updated := Some "2000000";
     raw_updated_parsed := Some [2024; 1; 1; 0; 0; 2; 0; 1; 0]%Z |}.

Definition raw_unread : raw_entry :=
  {| raw_id := Some "https://example.org/9";
     raw_link := Some "https://example.org/post";
     raw_links := Some [];
     raw_title := Some "Hello";
     raw_tags := [];
     raw_summary := None;
     raw_content := [];
     raw_comments := None;
     raw_updated := Some "1000000";
     raw_updated_parsed := None |}.

(** In the sample world a date without timezone is written with a leading
    zero, which [decimal_isoformat] never writes. *)
Definition sample_naive (s : string) : bool :=
  match s with
  | String "0" (String _ _) => true
  | _ => false
  end.

Definition sample_world : World :=
  {| feedparser_parse url :=
       if String.eqb url "https://example.org/feed" then Ok [raw_future; raw_second; raw_first]
       else if String.eqb url "https://example.org/gallery.xml" then Ok [raw_pictured]
       else if String.eqb url "https://example.org/broken" then Ok [raw_undated]
       else if String.eqb url "https://example.org/burst" then Ok [raw_late; raw_early]
       else if String.eqb url "https://example.org/naive" then Ok [raw_naive; raw_undated]
       else if String.eqb url "https://example.org/mixed" then Ok [raw_anonymous; raw_first]
       else if String.eqb url "https://example.org/unread" then Ok [raw_second; raw_unread]
       else Ok [];
     utcnow _ := 5000000%N;
     dateutil_parse := decimal_parse;
     isoformat := decimal_isoformat;
     str_format := plain_format;
     cleanup text := text;
     soup_img_src html :=
       if str_truthy html then [Some "a.png"; None; Some "a.png"; Some "b.png"] else [];
     requests_get url := Some {| resp_content := url; resp_content_type := "image/png" |};
     media_post resp := Some (String.length (resp_content resp));
     status_post _ _ := true;
     random_draw k := 7 * k + 3;
     dateutil_naive := sample_naive |}.

Definition sample_feed : feed :=
  {| f_url := "https://example.org/feed"; f_template := "{title} {url}"; f_include_images := true |}.

Definition gallery_feed : feed :=
  {| f_url := "https://example.org/gallery.xml"; f_template := "{title} {url}"; f_include_images := true |}.

Definition broken_feed : feed :=
  {| f_url := "https://example.org/broken"; f_template := "{title} {url}"; f_include_images := false |}.

Definition mixed_feed : feed :=
  {| f_url := "https://example.org/mixed"; f_template := "{title} {url}"; f_include_images := false |}.

(** What [get_entry] makes of [raw_first] and of [raw_second]. *)
Definition entry_first : entry :=
  {| e_url := "https://example.org/1"; e_link := "https://example.org/post";
     e_links := []; e_comments := ""; e_title := "Hello"; e_summary := "";
     e_content := ""; e_hashtags := "#rocq_prover #v93"; e_images := None;
     e_updated := 1000000%N |}.

Definition entry_second : entry :=
  {| e_url := "https://example.org/2"; e_link := "https://example.org/post";
     e_links := []; e_comments := ""; e_title := "Hello"; e_summary := "";
     e_content := ""; e_hashtags := "#rocq_prover #v93"; e_images := None;
     e_updated := 2000000%N |}.

Definition plain_args : args :=
  {| dry_run := false; verbose := false; delay := false; dedupe := None |}.

Definition dedupe_link_args : args :=
  {| dry_run := false; verbose := false; delay := true; dedupe := Some F_link |}.

Definition dry_args : args :=
  {| dry_run := true; verbose := true; delay := true; dedupe := Some F_link |}.

(** ** Reading what a run has posted *)

(** The texts of the posts that went through, in order. *)
Definition posted (l : list event) : list string :=
  omap (λ ev, match ev with
              | StatusPost text _ true => Some text
              | _ => None
              end) l.

(** The trace of the image loop over [images]: each image is fetched, and
    uploaded when the fetch returned. *)
Definition image_trace (w : World) (images : list string) : list event :=
  flat_map (λ image, match requests_get w image with
                     | Some resp => [HttpGet image; MediaPost resp]
                     | None => [HttpGet image]
                     end) images.

(** The image loop goes through for [image] and gives the media id [media]. *)
Definition uploads_as (w : World) (image : string) (media : nat) : Prop :=
  ∃ resp, requests_get w image = Some resp ∧ media_post w resp = Some media.

(** ** The setup wizard: [yes_no] and [setup] *)

(** What the wizard asks of Python and of Mastodon, beside the [World]:
    - [str_lower] is [str.lower];
    - [create_app url name] is [Mastodon.create_app] and [log_in client_id
      client_secret url username password] is the [log_in] of a client
      built from these, [None] when the call raises;
    - [clock] is [datetime.now(tz=timezone.utc)] at line 261. *)
Record Desk : Type := {
  str_lower : string → string;
  create_app : string → string → option (string * string);
  log_in : string → string → string → string → string → option string;
  clock : datetime
}.

(** [yes_no(question)] for the answer [res] that [input] returns:
    [res.lower() in "y1"], a substring test. *)
Definition yes_no (d : Desk) (res : string) : bool :=
  str_contains (str_lower d res) "y1".

(** The dictionary [config], which [save_config] dumps to the
    configuration file. *)
Record config : Type := {
  c_name : string;
  c_url : string;
  c_client_id : string;
  c_client_secret : string;
  c_access_token : string;
  c_feeds : list feed
}.

(** What ends the wizard early: [input] at the end of the answers, or an
    exception of the calls it makes. *)
Inductive setup_exn : Type :=
| EOFError
| Raised (ex : exn).

(** The credentials the wizard has gathered at line 245, and the answers
    left to read. *)
Record credentials : Type := {
  cr_url : string;
  cr_name : string;
  cr_client_id : string;
  cr_client_secret : string;
  cr_access_token : string;
  cr_answers : list string
}.

(** Lines 225 to 244, reading the lines of [answers] one [input] at a
    time. *)
Definition ask_credentials (d : Desk) (answers : list string) : setup_exn + credentials :=
  match answers with
  | url :: have_app :: answers =>
      if yes_no d have_app then
        match answers with
        | client_id :: client_secret :: access_token :: answers =>
            inr {| cr_url := url; cr_name := "feediverse"; cr_client_id := client_id;
                   cr_client_secret := client_secret; cr_access_token := access_token;
                   cr_answers := answers |}
        | _ => inl EOFError
        end
      else
        match answers with
        | name :: answers =>
            match create_app d url name with
            | None => inl (Raised MastodonError)
            | Some (client_id, client_secret) =>
                match answers with
                | username :: password :: answers =>
                    match log_in d client_id client_secret url username password with
                    | None => inl (Raised MastodonError)
                    | Some access_token =>
                        inr {| cr_url := url; cr_name := name; cr_client_id := client_id;
                               cr_client_secret := client_secret;
                               cr_access_token := access_token; cr_answers := answers |}
                    end
                | _ => inl EOFError
                end
            end
        | [] => inl EOFError
        end
  | _ => inl EOFError
  end.

(** A value of [state['updated']]: a [datetime], or the string line 261
    stores there. *)
Inductive stamp : Type :=
| Stamp (d : datetime)
| StampStr (s : string).

Definition stamp_date (v : stamp) : option datetime :=
  match v with
  | Stamp d => Some d
  | StampStr _ => None
  end.

(** [save_state] on a state whose [updated] may hold strings: [v.isoformat()]
    raises [AttributeError] on a string, before the file is opened. *)
Definition save_state_stamps (w : World) (updated : gmap string stamp) (dupecheck : dupecheck_obj)
    : result state_doc :=
  if bool_decide (map_Forall (λ _ v, is_Some (stamp_date v)) updated)
  then Ok {| doc_updated := Some (isoformat w <$> omap stamp_date updated);
             doc_dupecheck := Some dupecheck |}
  else Raise AttributeError.

(** The two files after the wizard, and the exception that ended it, if
    any. *)
Record setup_result : Type := {
  config_file : option config;
  state_file : option state_doc;
  raised : option setup_exn
}.

(** [setup(config_file, state_file)] for a configuration file that does not
    exist, on the lines [answers] of the terminal; the prompts and notices
    it prints are left out. *)
Definition setup (w : World) (d : Desk) (answers : list string) (state_file0 : option state_doc)
    : setup_result :=
  let stop ex := {| config_file := None; state_file := state_file0; raised := Some ex |} in
  match ask_credentials d answers with
  | inl ex => stop ex
  | inr cr =>
      match cr_answers cr with
      | feed_url :: old_posts :: include_images :: _ =>
          let config :=
            {| c_name := cr_name cr; c_url := cr_url cr; c_client_id := cr_client_id cr;
               c_client_secret := cr_client_secret cr; c_access_token := cr_access_token cr;
               c_feeds := [{| f_url := feed_url; f_template := "{title} {url}";
                              f_include_images := yes_no d include_images |}] |} in
          match read_state w state_file0 with
          | Raise ex => stop (Raised ex)
          | Ok st =>
              let updated := Stamp <$> st_updated st in
              let updated :=
                if yes_no d old_posts then updated
                else <[feed_url := StampStr (isoformat w (clock d))]> updated in
              match save_state_stamps w updated (st_dupecheck st) with
              | Raise ex =>
                  {| config_file := Some config; state_file := state_file0;
                     raised := Some (Raised ex) |}
              | Ok doc =>
                  {| config_file := Some config; state_file := Some doc; raised := None |}
              end
          end
      | _ => stop EOFError
      end
  end.

(** A desk for closed examples: [lower] on the letters A to Z. *)
Definition ascii_lower (c : ascii) : ascii :=
  let n := nat_of_ascii c in
  if (65 <=? n) && (n <=? 90) then ascii_of_nat (n + 32) else c.

Fixpoint sample_lower (s : string) : string :=
  match s with
  | EmptyString => EmptyString
  | String c s' => String (ascii_lower c) (sample_lower s')
  end.

Definition sample_desk : Desk :=
  {| str_lower := sample_lower;
     create_app _ _ := Some ("id", "secret");
     log_in _ _ _ _ _ := Some "token";
     clock := 4000000%N |}.

(** ** The text cleaner: the [re.sub] calls and the [strip] of [cleanup] *)

(** The [World] keeps [cleanup] opaque; here the part of it that is the
    script's own is modelled, on text as the sequence of its code points. *)
Definition SP : N := 32.
Definition NL : N := 10.
Definition NBSP : N := 160.

(** What stands for a run of [pending] characters [c] once the run has
    ended, under [re.sub] with a pattern for [k] or more [c]: the
    replacement when the pattern matches, the run itself otherwise. *)
Definition flush (c : N) (k : nat) (repl : list N) (pending : nat) : list N :=
  if k <=? pending then repl else repeat c pending.

(** [re.sub(pattern, repl, text)] for a pattern that matches [k] or more
    [c] ([c+] for [k = 1], [cc+] for [k = 2], ...; [k] is at least 1): the
    text is read from the left, [pending] counts the characters of the run
    of [c] being read, and each maximal run is flushed at its end. *)
Fixpoint sub_run (c : N) (k : nat) (repl : list N) (pending : nat) (text : list N) : list N :=
  match text with
  | [] => flush c k repl pending
  | x :: text' =>
      if (x =? c)%N then sub_run c k repl (S pending) text'
      else flush c k repl pending ++ x :: sub_run c k repl 0 text'
  end.

(** [re.sub(' +\n', '\n', text)]: the spaces of the run being read are held
    back, dropped when a newline ends the run and kept otherwise. *)
Fixpoint sub_spaces_newline (pending : nat) (text : list N) : list N :=
  match text with
  | [] => repeat SP pending
  | x :: text' =>
      if (x =? SP)%N then sub_spaces_newline (S pending) text'
      else if (x =? NL)%N then NL :: sub_spaces_newline 0 text'
      else repeat SP pending ++ x :: sub_spaces_newline 0 text'
  end.

(** The characters [str.strip] removes: those [str.isspace] holds of. *)
Definition is_space (c : N) : bool :=
  ((9 <=? c) && (c <=? 13) || (28 <=? c) && (c <=? 32) || (c =? 133) || (c =? 160)
   || (c =? 5760) || (8192 <=? c) && (c <=? 8202) || (c =? 8232) || (c =? 8233)
   || (c =? 8239) || (c =? 8287) || (c =? 12288))%N.

Fixpoint lstrip (text : list N) : list N :=
  match text with
  | [] => []
  | x :: text' => if is_space x then lstrip text' else text
  end.

(** [text.strip()]. *)
Definition strip (text : list N) : list N :=
  reverse (lstrip (reverse (lstrip text))).

(** Lines 156 to 160 of [cleanup], on the text [get_text] returned. *)
Definition tidy (text : list N) : list N :=
  let text := sub_run NBSP 1 [SP] 0 text in
  let text := sub_run SP 2 [SP] 0 text in
  let text := sub_spaces_newline 0 text in
  let text := sub_run NL 3 [NL; NL] 0 text in
  strip text.

(** [cleanup(text)]; [get_text] is [BeautifulSoup(text, 'html.parser').get_text()]. *)
Definition cleanup_text (get_text : list N → list N) (text : list N) : list N :=
  tidy (get_text text).

(** [p] occurs in [text] as a block of consecutive characters. *)
Definition occurs (p text : list N) : Prop :=
  ∃ before after, text = before ++ p ++ after.

(** Every run of [c] in [text], the first one counted with [n] more in
    front of it, is shorter than [k]. *)
Fixpoint short_runs (c : N) (k n : nat) (text : list N) : Prop :=
  match text with
  | [] => n < k
  | x :: text' =>
      if (x =? c)%N then short_runs c k (S n) text'
      else n < k ∧ short_runs c k 0 text'
  end.

(** No [b] of [text] comes right after an [a], [prev] being the character
    in front of [text]. *)
Fixpoint no_pair (a b : N) (prev : option N) (text : list N) : Prop :=
  match text with
  | [] => True
  | x :: text' => ¬ (prev = Some a ∧ x = b) ∧ no_pair a b (Some x) text'
  end.

(** ** Properties of the ledger *)

Lemma update_dupes_length (dupes : list string) (new : string) :
  length (update_dupes dupes new) =
  if 50 <? length dupes then length dupes else S (length dupes).
Proof.
  unfold update_dupes. destruct (50 <? length dupes) eqn:E.
  - apply Nat.ltb_lt in E. rewrite length_app, length_drop. simpl. lia.
  - rewrite length_app. simpl. lia.
Qed.

Lemma record_all_length_le (dupes news : list string) :
  length dupes ≤ 51 → length (record_all dupes news) ≤ 51.
Proof.
  unfold record_all. revert dupes.
  induction news as [|v news IH]; intros dupes Hlen; simpl; [done|].
  apply IH. rewrite update_dupes_length.
  destruct (50 <? length dupes) eqn:E; [lia|].
  apply Nat.ltb_ge in E. lia.
Qed.

Lemma record_all_window (dupes news : list string) :
  length dupes ≤ 51 →
  record_all dupes news = drop (length (dupes ++ news) - 51) (dupes ++ news).
Proof.
  unfold record_all. revert dupes.
  induction news as [|v news IH]; intros dupes Hlen; simpl.
  - rewrite app_nil_r. replace (length dupes - 51) with 0 by lia. done.
  - rewrite IH.
    + unfold update_dupes. destruct (50 <? length dupes) eqn:E.
      * apply Nat.ltb_lt in E. assert (length dupes = 51) as H51 by lia.
        destruct dupes as [|d dupes]; [simpl in *; lia|].
        simpl in H51. change (drop 1 (d :: dupes)) with dupes.
        rewrite <- app_assoc. change ([v] ++ news) with (v :: news).
        change ((d :: dupes) ++ v :: news) with (d :: (dupes ++ v :: news)).
        replace (length (d :: (dupes ++ v :: news)) - 51)
          with (S (length (dupes ++ v :: news) - 51))
          by (simpl; rewrite length_app; simpl; lia).
        done.
      * rewrite <- app_assoc. done.
    + rewrite update_dupes_length. destruct (50 <? length dupes) eqn:E; [lia|].
      apply Nat.ltb_ge in E. lia.
Qed.

Lemma update_dupes_short (dupes : list string) (new : string) :
  length dupes ≤ 50 → update_dupes dupes new = dupes ++ [new].
Proof.
  intros Hlen. unfold update_dupes.
  destruct (50 <? length dupes) eqn:E; [|done].
  apply Nat.ltb_lt in E. lia.
Qed.

Lemma update_dupes_full (dupes : list string) (new : string) :
  50 < length dupes → update_dupes dupes new = drop 1 dupes ++ [new].
Proof.
  intros Hlen. unfold update_dupes.
  destruct (50 <? length dupes) eqn:E; [done|].
  apply Nat.ltb_ge in E. lia.
Qed.

(** C1, as the claim states it, fails: fifty-one values recorded into an
    empty ledger are all kept, so the ledger is longer than 50 and the
    first recorded value is still there. *)
Lemma ledger_holds_51_values :
  ¬ (length (record_all [] (sample_values 51)) ≤ 50) ∧
  ¬ (sample_value 1 ∉ record_all [] (sample_values 51)).
Proof.
  split.
  - vm_compute. lia.
  - intros Habsent. apply Habsent. vm_compute. apply list_elem_of_here.
Qed.

(** C1, amended: a ledger that starts with at most 51 values never holds
    more than 51; [update_dupes] drops the oldest value first, when the
    ledger is already longer than 50, and then appends; the ledger is the
    last 51 values in insertion order, so it is the 52nd value recorded
    into an empty ledger that evicts the 1st and leaves the 2nd to the 52nd
    in their order. *)
Theorem ledger_keeps_last_51 (dupes news : list string) (Hstart : length dupes ≤ 51) :
  length (record_all dupes news) ≤ 51 ∧
  record_all dupes news = drop (length (dupes ++ news) - 51) (dupes ++ news) ∧
  (∀ new, length dupes ≤ 50 → update_dupes dupes new = dupes ++ [new]) ∧
  (∀ new, 50 < length dupes → update_dupes dupes new = drop 1 dupes ++ [new]) ∧
  (dupes = [] → length news = 52 → NoDup news →
     record_all dupes news = drop 1 news ∧
     ∀ first, head news = Some first → first ∉ record_all dupes news).
Proof.
  split; [by apply record_all_length_le|].
  split; [by apply record_all_window|].
  split; [intros new; apply update_dupes_short|].
  split; [intros new; apply update_dupes_full|].
  intros -> Hlen Hnodup.
  rewrite record_all_window by (simpl; lia).
  simpl app. rewrite Hlen. change (52 - 51) with 1.
  split; [done|].
  intros first Hhead. destruct news as [|x news]; [done|].
  simpl in Hhead. injection Hhead as ->. simpl. rewrite drop_0.
  by apply NoDup_cons_1_1 in Hnodup.
Qed.

Lemma ledger_keeps_last_51_witness :
  length (record_all [] (sample_values 52)) ≤ 51 ∧
  record_all [] (sample_values 52) = drop 1 (sample_values 52) ∧
  sample_value 1 ∉ record_all [] (sample_values 52).
Proof.
  assert (length (@nil string) ≤ 51) as Hstart by (simpl; lia).
  destruct (ledger_keeps_last_51 [] (sample_values 52) Hstart)
    as (Hlen & _ & _ & _ & Hlast).
  assert (NoDup (sample_values 52)) as Hnodup
    by (apply (bool_decide_unpack (NoDup (sample_values 52))); vm_compute; exact I).
  destruct (Hlast eq_refl eq_refl Hnodup) as [Heq Habsent].
  split; [exact Hlen|]. split; [exact Heq|].
  apply Habsent. reflexivity.
Defined.

(** ** Properties of [get_feed] *)





Lemma insert_by_key_perm (e : raw_entry) (l : list raw_entry) :
  Permutation (insert_by_key e l) (e :: l).
Proof.
  induction l as [|x l IH]; simpl; [done|].
  destruct (tuple_leb _ _); [done|].
  rewrite IH. apply perm_swap.
Qed.

Lemma sort_by_key_perm (l : list raw_entry) : Permutation (sort_by_key l) l.
Proof.
  induction l as [|x l IH]; simpl; [done|].
  fold (sort_by_key l). rewrite insert_by_key_perm. by constructor.
Qed.








Lemma sort_entries_ok (l kept : list raw_entry) :
  sort_entries l = Ok kept → kept = sort_by_key l.
Proof. unfold sort_entries. destruct (_ || _); [by intros [= <-]|done]. Qed.

Lemma filter_r_total {A : Type} (p : A → result bool) (q : A → bool) (l : list A) :
  (∀ x, x ∈ l → p x = Ok (q x)) → filter_r p l = Ok (List.filter q l).
Proof.
  induction l as [|x l IH]; intros Hp; simpl; [done|].
  rewrite (Hp x) by apply list_elem_of_here. simpl.
  rewrite IH by (intros y Hy; apply Hp; by apply list_elem_of_further). simpl.
  by destruct (q x).
Qed.

Lemma filter_all {A : Type} (l : list A) : List.filter (λ _, true) l = l.
Proof. induction l as [|x l IH]; simpl; [done|by rewrite IH]. Qed.

Lemma elem_of_List_filter {A : Type} (q : A → bool) (l : list A) (x : A) :
  x ∈ List.filter q l ↔ x ∈ l ∧ q x = true.
Proof. rewrite !list_elem_of_In. apply filter_In. Qed.

Lemma parsed_updated_timestamp (w : World) (e : raw_entry) :
  dated w e → parsed_updated w e = Ok (timestamp w e).
Proof.
  intros (text & d & Htext & Hd & Haware). unfold parsed_updated, timestamp.
  rewrite Htext. simpl. rewrite Hd. simpl. by rewrite Haware.
Qed.

Lemma parsed_updated_dated (w : World) (e : raw_entry) (d : datetime) :
  parsed_updated w e = Ok d → dated w e.
Proof.
  unfold parsed_updated. destruct (raw_updated e) as [text|] eqn:Htext; simpl; [|done].
  destruct (dateutil_parse w text) as [d'|] eqn:Hd; simpl; [|done].
  destruct (dateutil_naive w text) eqn:Hnaive; [done|]. intros _. by exists text, d'.
Qed.

(** What [get_entry] needs and what it gives. *)
Lemma get_entry_inv (w : World) (raw : raw_entry) (e : entry) :
  get_entry w raw = Ok e →
  complete raw ∧
  (∃ text, raw_updated raw = Some text ∧ dateutil_parse w text = Some (e_updated e)) ∧
  e_updated e = timestamp w raw ∧
  e_images e = find_images w (default "" (raw_summary raw)).
Proof.
  unfold get_entry, complete, timestamp.
  destruct (map_r _ (raw_tags raw)) as [hashtags|] eqn:Htags; [|done].
  assert (Forall is_Some (raw_tags raw)) as Hterms.
  { clear -Htags. revert hashtags Htags.
    induction (raw_tags raw) as [|term terms IH]; intros hashtags Htags; [constructor|].
    simpl in Htags. destruct term as [term|]; [|done]. simpl in Htags.
    destruct (map_r _ terms) as [rest|]; [|done].
    constructor; [by eexists|]. by apply (IH rest). }
  cbn [mbind result_bind].
  destruct (raw_id raw) as [url|]; [|done]. cbn [of_option mbind result_bind].
  destruct (raw_link raw) as [link|]; [|done]. cbn [of_option mbind result_bind].
  destruct (raw_links raw) as [links|]; [|done]. cbn [of_option mbind result_bind].
  destruct (raw_title raw) as [title|]; [|done]. cbn [of_option mbind result_bind].
  destruct (raw_updated raw) as [text|]; [|done]. cbn [of_option mbind result_bind].
  destruct (dateutil_parse w text) as [d|] eqn:Hd; [|done]. cbn [of_option mbind result_bind].
  intros [= <-]. cbn [e_updated e_images].
  split; [by repeat split; try by eexists|].
  split; [by exists text|]. split; [|done].
  cbn [mbind option_bind]. by rewrite Hd.
Qed.




Lemma map_r_get_entry_inv (w : World) (l : list raw_entry) (entries : list entry) :
  map_r (get_entry w) l = Ok entries →
  Forall2 (λ raw e, get_entry w raw = Ok e ∧ e_updated e = timestamp w raw) l entries.
Proof.
  revert entries. induction l as [|x l IH]; intros entries; simpl.
  - intros [= <-]. constructor.
  - destruct (get_entry w x) as [e|] eqn:He; [|done]. simpl.
    destruct (map_r (get_entry w) l) as [rest|]; [|done]. simpl. intros [= <-].
    constructor; [|by apply IH]. split; [done|].
    by destruct (get_entry_inv w x e He) as (_ & _ & ? & _).
Qed.

(** The generator read to its end and the generator driven by the loop. *)
Lemma yielded_map_r (w : World) (raws : list raw_entry) (entries : list entry) :
  map_r (get_entry w) raws = Ok entries ↔ yielded w raws = (entries, None).
Proof.
  revert entries. induction raws as [|raw rest IH]; intros entries; simpl.
  - split; [by intros [= <-]|by intros [= <-]].
  - destruct (get_entry w raw) as [e|ex]; simpl; [|split; intros [=]].
    destruct (map_r (get_entry w) rest) as [es|ex] eqn:Hmap; simpl.
    + rewrite (proj1 (IH es) eq_refl). split; by intros [= <-].
    + destruct (yielded w rest) as [es stop] eqn:Hyield. split; [done|].
      intros [= <- ->]. by pose proof (proj2 (IH es) eq_refl).
Qed.

Lemma yielded_stop (w : World) (raws : list raw_entry) (ex : exn) :
  (yielded w raws).2 = Some ex →
  ∃ before raw after,
    raws = before ++ raw :: after ∧ get_entry w raw = Raise ex ∧
    Forall2 (λ raw e, get_entry w raw = Ok e) before (yielded w raws).1.
Proof.
  induction raws as [|raw rest IH]; simpl; [done|].
  destruct (get_entry w raw) as [e|ex'] eqn:He; simpl.
  - destruct (yielded w rest) as [es stop]. simpl in *. intros Hstop.
    destruct (IH Hstop) as (before & raw' & after & -> & Hraise & Hok).
    exists (raw :: before), raw', after. split; [done|]. split; [done|by constructor].
  - intros [= ->]. exists [], raw, rest. split; [done|]. split; [done|constructor].
Qed.

Lemma yielded_raise (w : World) (raws : list raw_entry) (ex : exn) :
  (yielded w raws).2 = Some ex → map_r (get_entry w) raws = Raise ex.
Proof.
  induction raws as [|raw rest IH]; simpl; [done|].
  destruct (get_entry w raw) as [e|ex']; simpl; [|by intros [= ->]].
  destruct (yielded w rest) as [es stop]. simpl in *. intros Hstop.
  by rewrite (IH Hstop).
Qed.

(** [get_feed] read to its end, from its two halves. *)
Lemma get_feed_yielded (w : World) (feed_url : string) (last_update : option datetime) :
  get_feed w feed_url last_update
  = match select_entries w feed_url last_update with
    | Raise ex => Raise ex
    | Ok raws =>
        match (yielded w raws).2 with
        | None => Ok (yielded w raws).1
        | Some ex => Raise ex
        end
    end.
Proof.
  unfold get_feed. destruct (select_entries w feed_url last_update) as [raws|ex]; [|done].
  simpl. destruct (yielded w raws) as [entries [ex|]] eqn:Hyield; simpl.
  - apply yielded_raise. by rewrite Hyield.
  - by apply yielded_map_r.
Qed.

(** The loop of [main] over the generator: the loop over what it yields,
    then the exception that stopped it, if any. *)
Lemma run_yielded_eq (w : World) (a : args) (f : feed) (raws : list raw_entry) (s : loop) :
  run_yielded w a f raws s
  = ((run_entries w a f (yielded w raws).1 s).1,
     match (run_entries w a f (yielded w raws).1 s).2 with
     | Some ex => Some ex
     | None => (yielded w raws).2
     end).
Proof.
  unfold run_yielded. destruct (yielded w raws) as [entries stop]. simpl.
  by destruct (run_entries w a f entries s) as [s' r].
Qed.


(** What the two filters keep of a feed whose entries are all dated. *)
Lemma select_entries_dated (w : World) (feed_url : string) (last_update : option datetime)
    (raws : list raw_entry) :
  feedparser_parse w feed_url = Ok raws →
  (∀ e, e ∈ raws → dated w e) →
  select_entries w feed_url last_update
  = sort_entries
      (List.filter (λ e, match last_update with
                         | Some last => (last <? timestamp w e)%N
                         | None => true
                         end)
         (List.filter (λ e, (timestamp w e <=? utcnow w feed_url)%N) raws)).
Proof.
  intros Hfetch Hdates. unfold select_entries. rewrite Hfetch. simpl.
  rewrite (filter_r_total _ (λ e, (timestamp w e <=? utcnow w feed_url)%N)).
  2:{ intros e He. rewrite parsed_updated_timestamp by by apply Hdates. done. }
  simpl. destruct last_update as [last|]; simpl.
  - rewrite (filter_r_total _ (λ e, (last <? timestamp w e)%N)); [done|].
    intros e He. apply elem_of_List_filter in He as [He _].
    rewrite parsed_updated_timestamp by by apply Hdates. done.
  - by rewrite filter_all.
Qed.




(** ** Properties of rendering *)

Lemma str_take_len (n : nat) (s : string) :
  str_len (str_take n s) = n `min` str_len s.
Proof.
  revert n. induction s as [|c s IH]; intros n; simpl; [lia|].
  destruct (is_continuation c) eqn:Hc; simpl.
  - by rewrite Hc, IH.
  - destruct n as [|n]; simpl; [done|]. by rewrite Hc, IH.
Qed.

Lemma str_take_all (n : nat) (s : string) :
  str_len s ≤ n → str_take n s = s.
Proof.
  revert n. induction s as [|c s IH]; intros n; simpl; [done|].
  destruct (is_continuation c); simpl; intros Hlen.
  - by rewrite IH.
  - destruct n as [|n]; [lia|]. rewrite IH; [done|lia].
Qed.

Lemma str_take_prefix (n : nat) (s : string) : String.prefix (str_take n s) s = true.
Proof.
  revert n. induction s as [|c s IH]; intros n; simpl; [done|].
  destruct (is_continuation c); [|destruct n as [|n]; [done|]]; simpl;
    (destruct (ascii_dec c c); [apply IH|done]).
Qed.

Lemma str_take_drop (n : nat) (s : string) : s = str_take n s +:+ str_drop n s.
Proof.
  revert n. induction s as [|c s IH]; intros n; simpl; [done|].
  destruct (is_continuation c).
  - change (String c s = String c (str_take n s +:+ str_drop n s)). by rewrite <- IH.
  - destruct n as [|n]; [done|].
    change (String c s = String c (str_take n s +:+ str_drop n s)). by rewrite <- IH.
Qed.

Lemma str_drop_boundary (n : nat) (s : string) : at_boundary (str_drop n s).
Proof.
  revert n. induction s as [|c s IH]; intros n; simpl; [done|].
  destruct (is_continuation c) eqn:Hc; [apply IH|].
  destruct n as [|n]; [exact Hc|apply IH].
Qed.

(** C5: the post text is what [str.format] renders from the template and
    the entry, cut to its first 499 characters, counted as Python counts
    them (a character of several bytes is one character and is never cut
    in two): the rendered text is the post text followed by a rest that
    begins at a character, the post text has 499 characters exactly when
    the rendered text has more, and is the rendered text itself
    otherwise. *)
Theorem entry_text_truncates (w : World) (template : string) (e : entry) (rendered : string)
    (Hformat : str_format w template e = Ok rendered) :
  ∃ text rest, entry_text w template e = Ok text ∧
    rendered = text +:+ rest ∧ at_boundary rest ∧
    String.prefix text rendered = true ∧
    str_len text ≤ 499 ∧
    (499 < str_len rendered → str_len text = 499) ∧
    (str_len rendered ≤ 499 → text = rendered).
Proof.
  exists (str_take 499 rendered), (str_drop 499 rendered).
  unfold entry_text. rewrite Hformat.
  split; [reflexivity|]. split; [apply str_take_drop|].
  split; [apply str_drop_boundary|]. split; [apply str_take_prefix|].
  rewrite str_take_len. split; [lia|]. split; [lia|].
  apply str_take_all.
Qed.

Lemma str_app_empty (s : string) : s +:+ "" = s.
Proof.
  induction s as [|c s IH]; [reflexivity|].
  change (String c (s +:+ "") = String c s). by rewrite IH.
Qed.

Lemma plain_format_title_url (e : entry) :
  plain_format "{title} {url}" e = Ok (e_title e +:+ " " +:+ e_url e).
Proof. unfold plain_format. simpl. by rewrite str_app_empty. Qed.

Lemma str_app_inv_l (a b c : string) : a +:+ b = a +:+ c → b = c.
Proof.
  induction a as [|x a IH]; [done|].
  change (String x (a +:+ b) = String x (a +:+ c) → b = c).
  intros [= Heq]. by apply IH.
Qed.

(** A title of 600 Cyrillic letters, 1200 bytes, is cut after its 499th
    letter, at byte 998. *)
Lemma entry_text_truncates_witness :
  ∃ text rest,
    entry_text sample_world "{title}" long_entry = Ok text ∧
    str_times 600 cyrillic_de = text +:+ rest ∧
    str_len text = 499 ∧ String.length text = 998 ∧
    text = str_times 499 cyrillic_de ∧ rest = str_times 101 cyrillic_de.
Proof.
  destruct (entry_text_truncates sample_world "{title}" long_entry
              (str_times 600 cyrillic_de))
    as (text & rest & Htext & Hsplit & _ & _ & _ & Hlong & _); [by vm_compute|].
  exists text, rest. split; [exact Htext|]. split; [exact Hsplit|].
  split; [apply Hlong; vm_compute; lia|].
  assert (text = str_times 499 cyrillic_de) as Htaken.
  { vm_compute in Htext. injection Htext as <-. by vm_compute. }
  split; [rewrite Htaken; by vm_compute|]. split; [exact Htaken|].
  apply (str_app_inv_l (str_times 499 cyrillic_de)).
  rewrite Htaken in Hsplit. rewrite <- Hsplit. by vm_compute.
Defined.

(** ** Properties of the normalizer *)

Lemma image_events_emit (ev : event) (s : loop) :
  is_image_event ev = false →
  List.filter is_image_event (out (emit ev s)) = List.filter is_image_event (out s).
Proof.
  intros Hev. simpl. rewrite List.filter_app. simpl. rewrite Hev. apply app_nil_r.
Qed.

Lemma publish_without_images (w : World) (a : args) (f : feed) (text : string)
    (e : entry) (s : loop) :
  images_truthy (e_images e) = false →
  List.filter is_image_event (out (publish w a f text e s).1)
  = List.filter is_image_event (out s).
Proof.
  intros Hnone. unfold publish. rewrite Hnone, andb_false_r.
  destruct (dry_run a), (status_post w text []), (delay a); simpl;
    rewrite ?List.filter_app; simpl; rewrite ?app_nil_r; done.
Qed.

(** C10: for an absent or empty summary [find_images] returns [None], not
    an empty list, so the entry's [images] is [None]; the guard of the
    image loop reads it as false, and processing the entry neither fetches
    nor uploads an image. *)
Theorem empty_summary_skips_images (w : World) (raw : raw_entry)
    (Hsummary : raw_summary raw = None ∨ raw_summary raw = Some "") :
  find_images w (default "" (raw_summary raw)) = None ∧
  find_images w (default "" (raw_summary raw)) ≠ Some [] ∧
  ∀ e, get_entry w raw = Ok e →
    e_images e = None ∧
    images_truthy (e_images e) = false ∧
    ∀ a f s,
      List.filter is_image_event (out (process_entry w a f e s).1)
      = List.filter is_image_event (out s).
Proof.
  assert (find_images w (default "" (raw_summary raw)) = None) as Hfind.
  { by destruct Hsummary as [-> | ->]. }
  split; [exact Hfind|]. split; [by rewrite Hfind|].
  intros e He.
  assert (e_images e = None) as Himages.
  { destruct (get_entry_inv w raw e He) as (_ & _ & _ & ->). exact Hfind. }
  split; [exact Himages|]. split; [by rewrite Himages|].
  intros a f s. unfold process_entry.
  set (s1 := Build_loop _ _ _ _). change (out s) with (out s1).
  destruct (entry_text w (f_template f) e) as [text|ex]; [|done].
  destruct (dry_run a) eqn:Hdry; [by apply image_events_emit|].
  assert (∀ s0 : loop,
            List.filter is_image_event (out (if verbose a then emit (Print text) s0 else s0))
            = List.filter is_image_event (out s0)) as Hverbose.
  { intros s0. destruct (verbose a); [by apply image_events_emit|done]. }
  destruct (dedupe a) as [field|].
  - destruct (ledger_contains _ _).
    + destruct (verbose a); simpl; rewrite ?List.filter_app; simpl; by rewrite ?app_nil_r.
    + destruct (update_dupes_obj _ _) as [recorded|ex]; simpl.
      * rewrite publish_without_images by (by rewrite Himages). exact (Hverbose s1).
      * exact (Hverbose s1).
  - rewrite publish_without_images by (by rewrite Himages). exact (Hverbose s1).
Qed.

Lemma empty_summary_skips_images_witness :
  find_images sample_world (default "" (raw_summary raw_first)) = None ∧
  ∃ e, get_entry sample_world raw_first = Ok e ∧ e_images e = None ∧
       List.filter is_image_event
         (out (process_entry sample_world plain_args sample_feed e
                 {| newest_post := 0%N; dupes := LList []; out := []; draws := 0 |}).1) = [].
Proof.
  assert (raw_summary raw_first = None ∨ raw_summary raw_first = Some "") as Hsummary
    by (left; reflexivity).
  destruct (empty_summary_skips_images sample_world raw_first Hsummary) as (Hfind & _ & Hentry).
  split; [exact Hfind|].
  destruct (get_entry sample_world raw_first) as [e|ex] eqn:He; [|discriminate He].
  exists e. split; [reflexivity|].
  destruct (Hentry e eq_refl) as (Himages & _ & Hquiet).
  split; [exact Himages|].
  exact (Hquiet plain_args sample_feed
           {| newest_post := 0%N; dupes := LList []; out := []; draws := 0 |}).
Defined.

(** ** Properties of the delay *)

Lemma randrange_10_30 (raw : nat) : 10 ≤ randrange 10 30 raw ≤ 29.
Proof.
  unfold randrange. change (30 - 10) with 20.
  pose proof (Nat.mod_upper_bound raw 20). lia.
Qed.

Lemma pause_run_app (w : World) (st : nat * pause_state) (l1 l2 : list event) :
  pause_run w st (l1 ++ l2) = pause_run w st l1 ≫= λ st', pause_run w st' l2.
Proof.
  revert st. induction l1 as [|ev l1 IH]; intros st; simpl; [done|].
  destruct (pause_step w st ev); [apply IH|done].
Qed.

Lemma well_paced_snoc (w : World) (l : list event) (n : nat) (ev : event) :
  well_paced w l n → pause_step w (n, Idle) ev = Some (n, Idle) →
  well_paced w (l ++ [ev]) n.
Proof.
  unfold well_paced. intros Hl Hev. rewrite pause_run_app, Hl.
  change (pause_run w (n, Idle) [ev] = Some (n, Idle)).
  unfold pause_run. by rewrite Hev.
Qed.

Lemma upload_images_paced (w : World) (images : list string) (medias : list nat) (s : loop) :
  well_paced w (out s) (draws s) →
  well_paced w (out (upload_images w images medias s).1) (draws (upload_images w images medias s).1).
Proof.
  revert medias s. induction images as [|image rest IH]; intros medias s Hs; simpl; [done|].
  assert (well_paced w (out (emit (HttpGet image) s)) (draws s)) as Hget
    by (by apply well_paced_snoc).
  destruct (requests_get w image) as [resp|]; [|exact Hget].
  assert (well_paced w (out (emit (MediaPost resp) (emit (HttpGet image) s))) (draws s)) as Hpost
    by (by apply well_paced_snoc).
  destruct (media_post w resp) as [media|]; [|exact Hpost].
  by apply IH.
Qed.

Lemma publish_paced (w : World) (a : args) (f : feed) (text : string) (e : entry) (s : loop) :
  dry_run a = false → delay a = true →
  well_paced w (out s) (draws s) →
  well_paced w (out (publish w a f text e s).1) (draws (publish w a f text e s).1).
Proof.
  intros Hdry Hdelay Hs. unfold publish. rewrite Hdry, Hdelay.
  assert (∀ (s' : loop) (medias : list nat),
            well_paced w (out s') (draws s') →
            let r := (if status_post w text medias
                      then
                        let d := randrange 10 30
                                   (random_draw w (draws (emit (StatusPost text medias true) s'))) in
                        let s2 := emit (Sleep d) (emit (PrintDelay d)
                                    (emit (StatusPost text medias true) s')) in
                        ({| newest_post := newest_post s2; dupes := dupes s2;
                            out := out s2; draws := S (draws s2) |}, None)
                      else (emit (StatusPost text medias false) s', Some MastodonError))
                     : loop * option exn in
            well_paced w (out r.1) (draws r.1)) as Hpost.
  { intros s' medias Hs'. unfold well_paced in *.
    destruct (status_post w text medias); simpl.
    - rewrite <- !app_assoc. rewrite pause_run_app, Hs'.
      cbn [mbind option_bind pause_run pause_step app].
      rewrite Nat.eqb_refl. cbn [pause_step]. by rewrite Nat.eqb_refl.
    - rewrite pause_run_app, Hs'. done. }
  destruct (f_include_images f && images_truthy (e_images e)).
  - pose proof (upload_images_paced w (take 4 (default [] (e_images e))) [] s Hs) as Hup.
    destruct (upload_images w (take 4 (default [] (e_images e))) [] s) as [s' [medias|ex]];
      simpl in Hup; [|exact Hup].
    specialize (Hpost s' medias Hup). simpl in Hpost.
    by destruct (status_post w text medias).
  - specialize (Hpost s [] Hs). simpl in Hpost.
    by destruct (status_post w text []).
Qed.

Lemma process_entry_paced (w : World) (a : args) (f : feed) (e : entry) (s : loop) :
  delay a = true →
  well_paced w (out s) (draws s) →
  well_paced w (out (process_entry w a f e s).1) (draws (process_entry w a f e s).1).
Proof.
  intros Hdelay Hs. unfold process_entry.
  set (s1 := Build_loop _ _ _ _).
  assert (well_paced w (out s1) (draws s1)) as Hs1 by exact Hs.
  clearbody s1. clear Hs s.
  destruct (entry_text w (f_template f) e) as [text|ex]; [|exact Hs1].
  destruct (dry_run a) eqn:Hdry; [by apply well_paced_snoc|].
  set (s2 := if verbose a then emit (Print text) s1 else s1).
  assert (well_paced w (out s2) (draws s2)) as Hs2.
  { unfold s2. destruct (verbose a); [by apply well_paced_snoc|done]. }
  clearbody s2.
  destruct (dedupe a) as [field|]; [|by apply publish_paced].
  destruct (ledger_contains _ _).
  - destruct (verbose a); [by apply well_paced_snoc|done].
  - destruct (update_dupes_obj _ _) as [recorded|ex]; [|exact Hs2].
    by apply publish_paced.
Qed.

Lemma run_entries_paced (w : World) (a : args) (f : feed) (entries : list entry) (s : loop) :
  delay a = true →
  well_paced w (out s) (draws s) →
  well_paced w (out (run_entries w a f entries s).1) (draws (run_entries w a f entries s).1).
Proof.
  intros Hdelay. revert s. induction entries as [|e rest IH]; intros s Hs; simpl; [done|].
  pose proof (process_entry_paced w a f e s Hdelay Hs) as He.
  destruct (process_entry w a f e s) as [s' [ex|]]; [exact He|by apply IH].
Qed.

Lemma run_feed_paced (w : World) (a : args) (f : feed) (m : machine) :
  delay a = true →
  well_paced w (log m) (ndraws m) →
  well_paced w (log (run_feed w a f m).1) (ndraws (run_feed w a f m).1).
Proof.
  intros Hdelay Hm. unfold run_feed.
  destruct (st_dupecheck (mem m)) as [dm|d]; [|exact Hm].
  set (log1 := if verbose a then _ else _).
  assert (well_paced w log1 (ndraws m)) as Hlog1.
  { unfold log1. destruct (verbose a); [by apply well_paced_snoc|done]. }
  clearbody log1.
  destruct (select_entries w (f_url f) _) as [raws|ex]; [|exact Hlog1].
  rewrite run_yielded_eq.
  match goal with |- context [run_entries w a f ?entries ?s0] =>
    pose proof (run_entries_paced w a f entries s0 Hdelay Hlog1) as Hloop;
    destruct (run_entries w a f entries s0) as [s r]
  end.
  simpl in Hloop. destruct r as [ex|]; [exact Hloop|].
  destruct (yielded w raws).2 as [ex|]; [exact Hloop|].
  destruct (dry_run a); [exact Hloop|].
  by apply well_paced_snoc.
Qed.

Lemma run_feeds_paced (w : World) (a : args) (feeds : list feed) (m : machine) :
  delay a = true →
  well_paced w (log m) (ndraws m) →
  well_paced w (log (run_feeds w a feeds m).1) (ndraws (run_feeds w a feeds m).1).
Proof.
  intros Hdelay. revert m. induction feeds as [|f rest IH]; intros m Hm; simpl; [done|].
  pose proof (run_feed_paced w a f m Hdelay Hm) as Hf.
  destruct (run_feed w a f m) as [m' [ex|]]; [exact Hf|by apply IH].
Qed.

Lemma main_paced (w : World) (a : args) (feeds : list feed) (file0 : option state_doc) :
  delay a = true →
  well_paced w (log (main w a feeds file0).1) (ndraws (main w a feeds file0).1).
Proof.
  intros Hdelay. unfold main.
  destruct (read_state w file0) as [st|ex]; [|done].
  by apply run_feeds_paced.
Qed.

Lemma pause_run_reads (w : World) (fuel : nat) :
  ∀ (l : list event) (n n' : nat),
    length l ≤ fuel →
    pause_run w (n, Idle) l = Some (n', Idle) →
    ∀ i text medias, l !! i = Some (StatusPost text medias true) →
      ∃ k d, d = randrange 10 30 (random_draw w k) ∧
             l !! S i = Some (PrintDelay d) ∧ l !! S (S i) = Some (Sleep d).
Proof.
  induction fuel as [|fuel IH]; intros l n n' Hlen Hrun i text medias Hi.
  { destruct l; [done|simpl in Hlen; lia]. }
  destruct l as [|ev l]; [done|]. simpl in Hlen.
  assert (pause_step w (n, Idle) ev = Some (n, Idle) → 
          ∃ k d, d = randrange 10 30 (random_draw w k) ∧
                 (ev :: l) !! S i = Some (PrintDelay d) ∧
                 (ev :: l) !! S (S i) = Some (Sleep d)) as Hskip.
  { intros Hstep. cbn [pause_run] in Hrun. rewrite Hstep in Hrun.
    destruct i as [|i]; [simpl in Hi; injection Hi as ->; done|].
    apply (IH l n n' ltac:(lia) Hrun i text medias Hi). }
  destruct ev as [| | | | | | |text' medias' ok|]; try (by apply Hskip).
  destruct ok; [|by apply Hskip]. clear Hskip.
  simpl in Hrun.
  destruct l as [|ev1 l]; [done|]. simpl in Hrun.
  destruct ev1 as [| | |d| | | | |]; try done.
  destruct (d =? randrange 10 30 (random_draw w n)) eqn:Hd; [|done].
  apply Nat.eqb_eq in Hd.
  destruct l as [|ev2 l]; [done|]. simpl in Hrun.
  destruct ev2 as [| | | |d'| | | |]; try done.
  destruct (d =? d') eqn:Hd'; [|done]. apply Nat.eqb_eq in Hd' as <-.
  destruct i as [|[|[|i]]]; try done.
  - exists n, d. done.
  - simpl in Hlen. apply (IH l (S n) n' ltac:(lia) Hrun i text medias Hi).
Qed.

(** C9: with [--delay], every [status_post] that returns is followed at
    once, before anything else the run does, by the notice and the sleep
    of one pause; its length is what [random.randrange(10, 30)] draws, a
    whole number of seconds from 10 to 29, each of the twenty values being
    drawn for one residue of the raw draw modulo 20. *)
Theorem pause_follows_each_post (w : World) (a : args) (feeds : list feed)
    (file0 : option state_doc) (Hdelay : delay a = true) :
  (∀ i text medias,
     log (main w a feeds file0).1 !! i = Some (StatusPost text medias true) →
     ∃ k d, d = randrange 10 30 (random_draw w k) ∧ 10 ≤ d ≤ 29 ∧
            log (main w a feeds file0).1 !! S i = Some (PrintDelay d) ∧
            log (main w a feeds file0).1 !! S (S i) = Some (Sleep d)) ∧
  (∀ raw, 10 ≤ randrange 10 30 raw ≤ 29) ∧
  (∀ d, 10 ≤ d ≤ 29 → randrange 10 30 (d - 10) = d) ∧
  (∀ raw, randrange 10 30 (raw + 20) = randrange 10 30 raw).
Proof.
  split.
  - intros i text medias Hi.
    destruct (pause_run_reads w _ _ 0 _ (Nat.le_refl _)
                (main_paced w a feeds file0 Hdelay) i text medias Hi)
      as (k & d & Hd & Hnotice & Hsleep).
    exists k, d. split; [done|]. split; [|done].
    rewrite Hd. apply randrange_10_30.
  - split; [apply randrange_10_30|]. split.
    + intros d Hd. unfold randrange. change (30 - 10) with 20.
      rewrite Nat.mod_small by lia. lia.
    + intros raw. unfold randrange. change (30 - 10) with 20.
      replace (raw + 20) with (raw + 1 * 20) by lia.
      by rewrite Nat.Div0.mod_add.
Qed.

Lemma pause_follows_each_post_witness :
  ∃ k d, d = randrange 10 30 (random_draw sample_world k) ∧ 10 ≤ d ≤ 29 ∧
    log (main sample_world dedupe_link_args [sample_feed] None).1 !! 1 = Some (PrintDelay d) ∧
    log (main sample_world dedupe_link_args [sample_feed] None).1 !! 2 = Some (Sleep d).
Proof.
  assert (delay dedupe_link_args = true) as Hdelay by reflexivity.
  apply (proj1 (pause_follows_each_post sample_world dedupe_link_args [sample_feed] None Hdelay)
           0 "Hello https://example.org/1" []).
  vm_compute. reflexivity.
Defined.

(** ** Properties of the dedupe check *)

Lemma upload_images_frame (w : World) (images : list string) (medias : list nat) (s : loop) :
  newest_post (upload_images w images medias s).1 = newest_post s ∧
  dupes (upload_images w images medias s).1 = dupes s.
Proof.
  revert medias s. induction images as [|image rest IH]; intros medias s; simpl; [done|].
  destruct (requests_get w image) as [resp|]; [|done].
  destruct (media_post w resp) as [media|]; [|done].
  destruct (IH (medias ++ [media]) (emit (MediaPost resp) (emit (HttpGet image) s))) as [-> ->].
  done.
Qed.

Lemma publish_frame (w : World) (a : args) (f : feed) (text : string) (e : entry) (s : loop) :
  newest_post (publish w a f text e s).1 = newest_post s ∧
  dupes (publish w a f text e s).1 = dupes s.
Proof.
  unfold publish.
  destruct (f_include_images f && images_truthy (e_images e)).
  - pose proof (upload_images_frame w (take 4 (default [] (e_images e))) [] s) as Hup.
    destruct (upload_images w (take 4 (default [] (e_images e))) [] s) as [s' [medias|ex]];
      simpl in Hup; [|exact Hup].
    destruct (dry_run a), (status_post w text medias), (delay a); exact Hup.
  - destruct (dry_run a), (status_post w text []), (delay a); done.
Qed.

Lemma update_dupes_appends (dupes : list string) (new : string) :
  new ∈ update_dupes dupes new ∧ last (update_dupes dupes new) = Some new.
Proof.
  unfold update_dupes. split.
  - apply elem_of_app. right. apply list_elem_of_here.
  - by rewrite last_snoc.
Qed.

(** C6: in a run that is not dry and dedupes on [field], one of the
    text-valued keys of an entry, the watermark candidate moves to
    [max(candidate, entry.updated)] whatever the ledger holds.  An entry
    whose value is already in the ledger is skipped: the body ends without
    an exception, nothing is fetched, uploaded or posted, no delay is
    drawn, and the ledger is left as it was.  An entry whose value is not
    in the ledger is recorded first: the value is appended to the ledger,
    the publish step starts from that ledger and never touches it, so the
    ledger holds the value when the body ends, whether or not the publish
    step has raised. *)
Theorem dedupe_check_precedes_publish (w : World) (a : args) (f : feed) (e : entry)
    (s : loop) (field : text_field) (text : string)
    (Hdry : dry_run a = false) (Hdedupe : dedupe a = Some field)
    (Htext : entry_text w (f_template f) e = Ok text) :
  let value := entry_field e field in
  let s' := (process_entry w a f e s).1 in
  newest_post s' = N.max (newest_post s) (e_updated e) ∧
  (ledger_contains (dupes s) value = true →
     (process_entry w a f e s).2 = None ∧
     dupes s' = dupes s ∧ draws s' = draws s ∧
     out s' = out s ++ (if verbose a then [Print text; PrintSkip text field] else [])) ∧
  (∀ l, dupes s = LList l → value ∉ l →
     dupes s' = LList (update_dupes l value) ∧
     value ∈ update_dupes l value ∧
     last (update_dupes l value) = Some value ∧
     ledger_contains (dupes s') value = true ∧
     ∃ recorded : loop,
       dupes recorded = LList (update_dupes l value) ∧
       ledger_contains (dupes recorded) value = true ∧
       newest_post recorded = N.max (newest_post s) (e_updated e) ∧
       draws recorded = draws s ∧
       out recorded = out s ++ (if verbose a then [Print text] else []) ∧
       process_entry w a f e s = publish w a f text e recorded).
Proof.
  intros value s'. subst s'. unfold process_entry.
  rewrite Htext, Hdry, Hdedupe. fold value.
  set (s1 := Build_loop _ _ _ _).
  set (s2 := if verbose a then emit (Print text) s1 else s1).
  assert (dupes s2 = dupes s ∧ newest_post s2 = N.max (newest_post s) (e_updated e)
          ∧ draws s2 = draws s
          ∧ out s2 = out s ++ (if verbose a then [Print text] else [])) as (Hd2 & Hn2 & Hr2 & Ho2).
  { unfold s2. destruct (verbose a); simpl; by rewrite ?app_nil_r. }
  clearbody s2. rewrite Hd2. split; [|split].
  - destruct (ledger_contains (dupes s) value).
    + by destruct (verbose a).
    + destruct (update_dupes_obj (dupes s) value) as [rec|ex]; [|done].
      by rewrite (proj1 (publish_frame _ _ _ _ _ _)).
  - intros ->.
    destruct (verbose a); simpl; rewrite Ho2, ?app_nil_r, <- ?app_assoc; repeat split; done.
  - intros l Hl Hvalue. rewrite Hl. simpl.
    rewrite bool_decide_eq_false_2 by done.
    destruct (update_dupes_appends l value) as [Hin Hlast].
    rewrite (proj2 (publish_frame _ _ _ _ _ _)). simpl.
    split; [done|]. split; [exact Hin|]. split; [exact Hlast|].
    split; [by apply bool_decide_eq_true|].
    eexists. split; [|split; [|split; [|split; [|split]]]]; [| | | | |reflexivity]; simpl;
      [done|by apply bool_decide_eq_true|done|done|done].
Qed.

(** Two entries that share their link, one after the other on an empty
    ledger: the first is a miss, recorded and posted; the second is a hit,
    skipped with the ledger as the first left it. *)
Lemma dedupe_check_precedes_publish_witness :
  let s := {| newest_post := 0%N; dupes := LList []; out := []; draws := 0 |} in
  let s1 := (process_entry sample_world dedupe_link_args sample_feed entry_first s).1 in
  let s2 := (process_entry sample_world dedupe_link_args sample_feed entry_second s1).1 in
  (newest_post s1 = 1000000%N ∧
   dupes s1 = LList ["https://example.org/post"] ∧
   posted (out s1) = ["Hello https://example.org/1"]) ∧
  (newest_post s2 = 2000000%N ∧ dupes s2 = dupes s1 ∧ out s2 = out s1 ∧
   (process_entry sample_world dedupe_link_args sample_feed entry_second s1).2 = None).
Proof.
  intros s s1 s2.
  assert (dry_run dedupe_link_args = false) as Hdry by reflexivity.
  assert (dedupe dedupe_link_args = Some F_link) as Hdedupe by reflexivity.
  assert (entry_text sample_world (f_template sample_feed) entry_first
          = Ok "Hello https://example.org/1") as Hfirst by reflexivity.
  assert (entry_text sample_world (f_template sample_feed) entry_second
          = Ok "Hello https://example.org/2") as Hsecond by reflexivity.
  destruct (dedupe_check_precedes_publish sample_world dedupe_link_args sample_feed
              entry_first s F_link _ Hdry Hdedupe Hfirst) as (Hnewest1 & _ & Hmiss).
  destruct (Hmiss [] eq_refl) as (Hdupes1 & _ & _ & Hheld & recorded & _ & _ & _ & _ & _ & _).
  { apply not_elem_of_nil. }
  destruct (dedupe_check_precedes_publish sample_world dedupe_link_args sample_feed
              entry_second s1 F_link _ Hdry Hdedupe Hsecond) as (Hnewest2 & Hhit & _).
  destruct (Hhit Hheld) as (Hnone & Hdupes2 & _ & Hout2).
  split; [|split; [exact Hnewest2|split; [exact Hdupes2|split; [|exact Hnone]]]].
  - split; [exact Hnewest1|]. split; [exact Hdupes1|]. reflexivity.
  - fold s2 in Hout2. rewrite Hout2. apply app_nil_r.
Defined.

Lemma get_entry_raw_second : get_entry sample_world raw_second = Ok entry_second.
Proof. reflexivity. Qed.

(** The scenario of two entries that share their link: the first is posted
    and recorded, the second is skipped, the watermark passes both. *)
Lemma shared_link_posted_once :
  let m := (main sample_world dedupe_link_args [sample_feed] None).1 in
  log m = [StatusPost "Hello https://example.org/1" [] true; PrintDelay 13; Sleep 13;
           SaveState (save_state sample_world (mem m))] ∧
  st_dupecheck (mem m) = DLedger (LList ["https://example.org/post"]) ∧
  st_updated (mem m) !! "https://example.org/feed" = Some 2000000%N.
Proof. vm_compute. done. Qed.

(** ** Properties of a dry run *)

Lemma watermark_touch (u : gmap string datetime) (url url' : string) :
  watermark (<[url := watermark u url]> u) url' = watermark u url'.
Proof.
  unfold watermark. destruct (decide (url = url')) as [->|Hne].
  - by rewrite lookup_insert_eq.
  - by rewrite lookup_insert_ne.
Qed.

Lemma ledger_touch (dm : gmap string ledger) (url url' : string) :
  ledger_of (<[url := ledger_of dm url]> dm) url' = ledger_of dm url'.
Proof.
  unfold ledger_of. destruct (decide (url = url')) as [->|Hne].
  - by rewrite lookup_insert_eq.
  - by rewrite lookup_insert_ne.
Qed.

Lemma map_r_elem {A B : Type} (f : A → result B) (l : list A) (ys : list B) (x : A) (y : B) :
  map_r f l = Ok ys → x ∈ l → f x = Ok y → y ∈ ys.
Proof.
  revert ys. induction l as [|x' l IH]; intros ys Hmap Hx Hy; [by apply elem_of_nil in Hx|].
  simpl in Hmap.
  destruct (f x') as [y'|] eqn:Hx'; [|done]. simpl in Hmap.
  destruct (map_r f l) as [ys'|]; [|done]. simpl in Hmap. injection Hmap as <-.
  apply elem_of_cons in Hx as [->|Hx].
  - rewrite Hx' in Hy. injection Hy as ->. apply list_elem_of_here.
  - apply list_elem_of_further. by apply IH.
Qed.

Lemma dry_run_entries (w : World) (a : args) (f : feed) (entries : list entry) (s : loop) :
  dry_run a = true →
  dupes (run_entries w a f entries s).1 = dupes s ∧
  draws (run_entries w a f entries s).1 = draws s ∧
  ∃ texts, out (run_entries w a f entries s).1 = out s ++ (Print <$> texts) ∧
    ((run_entries w a f entries s).2 = None →
     map_r (entry_text w (f_template f)) entries = Ok texts).
Proof.
  intros Hdry. revert s. induction entries as [|e rest IH]; intros s; simpl.
  { repeat split. exists []. by rewrite app_nil_r. }
  unfold process_entry. rewrite Hdry.
  destruct (entry_text w (f_template f) e) as [text|ex]; simpl.
  - match goal with |- context [run_entries w a f rest ?s1] =>
      destruct (IH s1) as (Hd & Hr & texts & Hout & Hok) end.
    rewrite Hd, Hr. repeat split. exists (text :: texts). split.
    + rewrite Hout. simpl. by rewrite <- app_assoc.
    + intros Hnone. by rewrite (Hok Hnone).
  - repeat split. exists []. by rewrite app_nil_r.
Qed.

Lemma dry_run_feed (w : World) (a : args) (f : feed) (m : machine) (dm0 : gmap string ledger) :
  dry_run a = true → st_dupecheck (mem m) = DMap dm0 →
  file (run_feed w a f m).1 = file m ∧
  (∀ url, watermark (st_updated (mem (run_feed w a f m).1)) url
          = watermark (st_updated (mem m)) url) ∧
  (∃ dm, st_dupecheck (mem (run_feed w a f m).1) = DMap dm ∧
         ∀ url, ledger_of dm url = ledger_of dm0 url) ∧
  ∃ texts,
    log (run_feed w a f m).1
    = log m
      ++ (if verbose a
          then [PrintFetching (f_url f) (watermark (st_updated (mem m)) (f_url f))]
          else [])
      ++ (Print <$> texts) ∧
    ((run_feed w a f m).2 = None →
     ∃ entries,
       get_feed w (f_url f) (Some (watermark (st_updated (mem m)) (f_url f))) = Ok entries ∧
       map_r (entry_text w (f_template f)) entries = Ok texts).
Proof.
  intros Hdry Hdm. unfold run_feed. rewrite Hdm, Hdry.
  set (newest := watermark (st_updated (mem m)) (f_url f)).
  set (log1 := if verbose a then log m ++ [PrintFetching (f_url f) newest] else log m).
  assert (log1 = log m ++ (if verbose a then [PrintFetching (f_url f) newest] else [])) as Hlog1.
  { unfold log1. destruct (verbose a); [done|by rewrite app_nil_r]. }
  pose proof (get_feed_yielded w (f_url f) (Some newest)) as Hfeed.
  destruct (select_entries w (f_url f) (Some newest)) as [raws|ex]; simpl.
  - rewrite run_yielded_eq.
    match goal with |- context [run_entries w a f ?entries ?s0] =>
      destruct (dry_run_entries w a f entries s0 Hdry) as (Hd & _ & texts & Hout & Hok);
      destruct (run_entries w a f entries s0) as [s r]
    end.
    simpl in Hd, Hout, Hok.
    assert (∀ url, ledger_of (<[f_url f := dupes s]> dm0) url = ledger_of dm0 url) as Hledger.
    { intros url. rewrite Hd. apply ledger_touch. }
    destruct r as [ex|]; [|destruct (yielded w raws).2 as [ex|]]; simpl.
    + split; [done|]. split; [intros url; apply watermark_touch|].
      split; [by eexists|]. exists texts. split; [|done].
      by rewrite Hout, Hlog1, <- app_assoc.
    + split; [done|]. split; [intros url; apply watermark_touch|].
      split; [by eexists|]. exists texts. split; [|done].
      by rewrite Hout, Hlog1, <- app_assoc.
    + split; [done|]. split; [intros url; apply watermark_touch|].
      split; [by eexists|]. exists texts. split.
      * by rewrite Hout, Hlog1, <- app_assoc.
      * intros _. exists (yielded w raws).1. split; [done|by apply Hok].
  - split; [done|]. split; [intros url; apply watermark_touch|].
    split; [eexists; split; [done|]; intros url; apply ledger_touch|].
    exists []. split; [|done]. simpl. by rewrite app_nil_r.
Qed.

Lemma dry_run_feeds (w : World) (a : args) (feeds : list feed) (m : machine)
    (u0 : gmap string datetime) (dm0 dm_m : gmap string ledger) :
  dry_run a = true →
  st_dupecheck (mem m) = DMap dm_m →
  (∀ url, watermark (st_updated (mem m)) url = watermark u0 url) →
  (∀ url, ledger_of dm_m url = ledger_of dm0 url) →
  Forall (λ ev, is_console ev = true) (log m) →
  file (run_feeds w a feeds m).1 = file m ∧
  Forall (λ ev, is_console ev = true) (log (run_feeds w a feeds m).1) ∧
  (∀ url, watermark (st_updated (mem (run_feeds w a feeds m).1)) url = watermark u0 url) ∧
  (∃ dm, st_dupecheck (mem (run_feeds w a feeds m).1) = DMap dm ∧
         ∀ url, ledger_of dm url = ledger_of dm0 url) ∧
  (∀ ev, ev ∈ log m → ev ∈ log (run_feeds w a feeds m).1) ∧
  ((run_feeds w a feeds m).2 = None →
   ∀ f entries e text,
     f ∈ feeds →
     get_feed w (f_url f) (Some (watermark u0 (f_url f))) = Ok entries →
     e ∈ entries → entry_text w (f_template f) e = Ok text →
     Print text ∈ log (run_feeds w a feeds m).1).
Proof.
  intros Hdry. revert m dm_m.
  induction feeds as [|f rest IH]; intros m dm_m Hdm Hwm Hled Hlog; simpl.
  { repeat split; try done; [by eexists|].
    intros _ f entries e text Hf. by apply elem_of_nil in Hf. }
  destruct (dry_run_feed w a f m dm_m Hdry Hdm)
    as (Hfile & Hwm1 & (dm1 & Hdm1 & Hled1) & texts & Hlog1 & Hok).
  assert (Forall (λ ev, is_console ev = true) (log (run_feed w a f m).1)) as Hconsole.
  { rewrite Hlog1. apply Forall_app. split; [done|]. apply Forall_app. split.
    - destruct (verbose a); by repeat constructor.
    - apply Forall_fmap. by apply Forall_true. }
  assert (∀ ev, ev ∈ log m → ev ∈ log (run_feed w a f m).1) as Hgrow.
  { intros ev Hev. rewrite Hlog1. apply elem_of_app. by left. }
  destruct (run_feed w a f m) as [m1 [ex|]]; simpl in *.
  - split; [done|]. split; [done|].
    split; [intros url; by rewrite Hwm1|].
    split; [exists dm1; split; [done|]; intros url; by rewrite Hled1|].
    split; [done|done].
  - destruct (IH m1 dm1 Hdm1) as (Hfile' & Hconsole' & Hwm' & Hdm' & Hgrow' & Hprinted);
      [intros url; by rewrite Hwm1|intros url; by rewrite Hled1|done|].
    split; [by rewrite Hfile'|]. split; [done|]. split; [done|]. split; [done|].
    split; [intros ev Hev; by apply Hgrow', Hgrow|].
    intros Hnone f' entries e text Hf' Hget He Htext.
    apply elem_of_cons in Hf' as [->|Hf'].
    + apply Hgrow'. destruct (Hok eq_refl) as (entries' & Hget' & Htexts).
      rewrite Hwm in Hget'. rewrite Hget in Hget'. injection Hget' as <-.
      rewrite Hlog1. apply elem_of_app. right. apply elem_of_app. right.
      apply list_elem_of_fmap. exists text. split; [done|].
      by eapply map_r_elem.
    + by eapply Hprinted.
Qed.

(** In a dry run the state file is left as it was, the run does nothing
    but write to the console (no image is fetched or uploaded, nothing is
    posted, nothing is saved, nothing sleeps), the watermark and the ledger
    of every feed read as they were loaded, and when the run reaches its
    end the text of every entry of every configured feed has been
    printed. *)
Theorem dry_run_changes_nothing (w : World) (a : args) (feeds : list feed)
    (file0 : option state_doc) (Hdry : dry_run a = true) :
  file (main w a feeds file0).1 = file0 ∧
  Forall (λ ev, is_console ev = true) (log (main w a feeds file0).1) ∧
  (∀ st0, read_state w file0 = Ok st0 →
     (∀ url, watermark (st_updated (mem (main w a feeds file0).1)) url
             = watermark (st_updated st0) url) ∧
     ∃ dm0 dm, st_dupecheck st0 = DMap dm0 ∧
               st_dupecheck (mem (main w a feeds file0).1) = DMap dm ∧
               ∀ url, ledger_of dm url = ledger_of dm0 url) ∧
  ((main w a feeds file0).2 = None →
   ∀ st0 f entries e text,
     read_state w file0 = Ok st0 → f ∈ feeds →
     get_feed w (f_url f) (Some (watermark (st_updated st0) (f_url f))) = Ok entries →
     e ∈ entries → entry_text w (f_template f) e = Ok text →
     Print text ∈ log (main w a feeds file0).1).
Proof.
  unfold main. destruct (read_state w file0) as [st|ex] eqn:Hread; simpl.
  2:{ split; [done|]. split; [constructor|]. split; [intros st0 [=]|intros [=]]. }
  assert (∃ dm0, st_dupecheck st = DMap dm0) as [dm0 Hdm0].
  { unfold read_state in Hread. destruct file0 as [doc|].
    - destruct (load_updated w doc); simpl in Hread; [|done].
      destruct (load_dupecheck doc); simpl in Hread; [|done].
      injection Hread as <-. by eexists.
    - injection Hread as <-. by eexists. }
  destruct (dry_run_feeds w a feeds
              {| mem := st; file := file0; log := []; ndraws := 0 |}
              (st_updated st) dm0 dm0 Hdry Hdm0)
    as (Hfile & Hconsole & Hwm & (dm & Hdm & Hled) & _ & Hprinted); try done.
  split; [exact Hfile|]. split; [exact Hconsole|]. split.
  - intros st0 [= <-]. split; [exact Hwm|]. by exists dm0, dm.
  - intros Hnone st0 f entries e text [= <-]. by apply Hprinted.
Qed.

Lemma dry_run_changes_nothing_witness :
  file (main sample_world dry_args [gallery_feed; sample_feed] None).1 = None ∧
  Forall (λ ev, is_console ev = true)
    (log (main sample_world dry_args [gallery_feed; sample_feed] None).1) ∧
  Print "Hello https://example.org/2"
    ∈ log (main sample_world dry_args [gallery_feed; sample_feed] None).1.
Proof.
  assert (dry_run dry_args = true) as Hdry by reflexivity.
  destruct (dry_run_changes_nothing sample_world dry_args [gallery_feed; sample_feed] None Hdry)
    as (Hfile & Hconsole & _ & Hprinted).
  split; [exact Hfile|]. split; [exact Hconsole|].
  apply (Hprinted eq_refl {| st_updated := ∅; st_dupecheck := DMap ∅ |} sample_feed
           [{| e_url := "https://example.org/1"; e_link := "https://example.org/post";
               e_links := []; e_comments := ""; e_title := "Hello"; e_summary := "";
               e_content := ""; e_hashtags := "#rocq_prover #v93"; e_images := None;
               e_updated := 1000000%N |}; entry_second] entry_second).
  - reflexivity.
  - apply list_elem_of_further, list_elem_of_here.
  - reflexivity.
  - apply list_elem_of_further, list_elem_of_here.
  - reflexivity.
Defined.

(** ** Properties of the watermark *)

Lemma parse_timestamps_isoformat (w : World) (u : gmap string datetime) :
  (∀ d, dateutil_parse w (isoformat w d) = Some d) →
  parse_timestamps w (isoformat w <$> u) = Ok u.
Proof.
  intros Hcodec. unfold parse_timestamps.
  rewrite bool_decide_eq_true_2.
  - f_equal. apply map_eq. intros url.
    rewrite lookup_omap, lookup_fmap.
    destruct (u !! url) as [d|]; simpl; [apply Hcodec|done].
  - intros url v Hv. rewrite lookup_fmap in Hv.
    destruct (u !! url) as [d|]; simpl in Hv; [|done].
    injection Hv as <-. rewrite Hcodec. by eexists.
Qed.



Lemma process_entry_newest (w : World) (a : args) (f : feed) (e : entry) (s : loop) :
  newest_post (process_entry w a f e s).1 = N.max (newest_post s) (e_updated e).
Proof.
  unfold process_entry.
  destruct (entry_text w (f_template f) e) as [text|ex]; [|done].
  destruct (dry_run a); [done|].
  destruct (dedupe a) as [field|].
  - destruct (ledger_contains _ _); [by destruct (verbose a)|].
    destruct (update_dupes_obj _ _) as [recorded|ex]; [|by destruct (verbose a)].
    rewrite (proj1 (publish_frame _ _ _ _ _ _)). by destruct (verbose a).
  - rewrite (proj1 (publish_frame _ _ _ _ _ _)). by destruct (verbose a).
Qed.

Lemma run_entries_newest (w : World) (a : args) (f : feed) (entries : list entry) (s : loop) :
  (newest_post s ≤ newest_post (run_entries w a f entries s).1)%N ∧
  ((run_entries w a f entries s).2 = None →
   newest_post (run_entries w a f entries s).1
   = foldl N.max (newest_post s) (e_updated <$> entries)).
Proof.
  revert s. induction entries as [|e rest IH]; intros s; simpl; [done|].
  pose proof (process_entry_newest w a f e s) as He.
  destruct (process_entry w a f e s) as [s' [ex|]]; simpl in *.
  - split; [lia|done].
  - destruct (IH s') as [Hle Heq]. rewrite <- He. split; [lia|done].
Qed.

Lemma watermark_insert (u : gmap string datetime) (url url' : string) (d : datetime) :
  watermark (<[url := d]> u) url' = if decide (url = url') then d else watermark u url'.
Proof.
  unfold watermark. destruct (decide (url = url')) as [->|Hne].
  - by rewrite lookup_insert_eq.
  - by rewrite lookup_insert_ne.
Qed.




(** The decimal codec of the sample world reads back what it writes. *)
Lemma sample_codec (d : datetime) :
  dateutil_parse sample_world (isoformat sample_world d) = Some d.
Proof.
  change (N.of_uint <$> NilEmpty.uint_of_string (NilEmpty.string_of_uint (N.to_uint d)) = Some d).
  rewrite NilEmpty.usu. simpl. f_equal. apply DecimalN.Unsigned.of_to.
Qed.



(** ** A fetch that raises *)

Lemma run_feeds_app (w : World) (a : args) (before rest : list feed) (m : machine) :
  run_feeds w a (before ++ rest) m =
  match run_feeds w a before m with
  | (m', None) => run_feeds w a rest m'
  | (m', Some ex) => (m', Some ex)
  end.
Proof.
  revert m. induction before as [|f before IH]; intros m; simpl.
  - by destruct (run_feeds w a rest m) as [m' [ex|]].
  - destruct (run_feed w a f m) as [m' [ex|]]; [done|]. apply IH.
Qed.

(** A turn of the feed loop whose [get_feed] raises before its first
    [yield]: nothing catches the exception. *)
Lemma run_feed_fetch_raises (w : World) (a : args) (f : feed) (m : machine) (ex : exn) :
  select_entries w (f_url f) (Some (watermark (st_updated (mem m)) (f_url f))) = Raise ex →
  ((run_feed w a f m).2 = Some ex ∨ (run_feed w a f m).2 = Some TypeError) ∧
  file (run_feed w a f m).1 = file m ∧
  log (run_feed w a f m).1
  = log m ++ (if verbose a
              then match st_dupecheck (mem m) with
                   | DMap _ => [PrintFetching (f_url f) (watermark (st_updated (mem m)) (f_url f))]
                   | DLedger _ => []
                   end
              else []) ∧
  ndraws (run_feed w a f m).1 = ndraws m ∧
  (∀ url, watermark (st_updated (mem (run_feed w a f m).1)) url
          = watermark (st_updated (mem m)) url) ∧
  (∀ dm, st_dupecheck (mem m) = DMap dm →
     (run_feed w a f m).2 = Some ex ∧
     ∃ dm', st_dupecheck (mem (run_feed w a f m).1) = DMap dm' ∧
            ∀ url, ledger_of dm' url = ledger_of dm url).
Proof.
  intros Hraise. unfold run_feed. rewrite Hraise.
  destruct (st_dupecheck (mem m)) as [dm|d]; simpl.
  - split; [by left|]. split; [done|]. split; [by destruct (verbose a); rewrite ?app_nil_r|].
    split; [done|]. split; [intros url; apply watermark_touch|].
    intros dm0 [= <-]. split; [done|]. eexists. split; [done|].
    intros url. apply ledger_touch.
  - split; [by right|]. split; [done|]. split; [by destruct (verbose a); rewrite ?app_nil_r|].
    split; [done|]. split; [intros url; apply watermark_touch|]. done.
Qed.

(** A [get_feed] that raises is caught nowhere.  When the feeds before [f]
    have been processed and the body of [get_feed] raises for [f] before
    its first [yield] (the fetch, the reading of a date in one of the two
    filters, or the sort), the run ends there with an exception (that one,
    unless indexing [state['dupecheck']] has raised a [TypeError] first),
    whatever feeds are configured after [f]: none of them is processed.
    Nothing is posted, saved or slept for [f] (at most the verbose notice is
    printed), the state file is the one the feeds before [f] left, and the
    watermark and the ledger of every feed read as they did before [f]. *)
Theorem fetch_failure_ends_run (w : World) (a : args) (before after : list feed) (f : feed)
    (file0 : option state_doc) (st0 : state) (m1 : machine) (ex : exn)
    (Hread : read_state w file0 = Ok st0)
    (Hbefore : run_feeds w a before {| mem := st0; file := file0; log := []; ndraws := 0 |}
               = (m1, None))
    (Hraise : select_entries w (f_url f) (Some (watermark (st_updated (mem m1)) (f_url f)))
              = Raise ex) :
  main w a (before ++ f :: after) file0 = run_feed w a f m1 ∧
  ((main w a (before ++ f :: after) file0).2 = Some ex ∨
   (main w a (before ++ f :: after) file0).2 = Some TypeError) ∧
  file (main w a (before ++ f :: after) file0).1 = file m1 ∧
  (∃ notice, log (main w a (before ++ f :: after) file0).1 = log m1 ++ notice ∧
             Forall (λ ev, is_console ev = true) notice) ∧
  (∀ url, watermark (st_updated (mem (main w a (before ++ f :: after) file0).1)) url
          = watermark (st_updated (mem m1)) url) ∧
  (∀ dm, st_dupecheck (mem m1) = DMap dm →
     (main w a (before ++ f :: after) file0).2 = Some ex ∧
     ∃ dm', st_dupecheck (mem (main w a (before ++ f :: after) file0).1) = DMap dm' ∧
            ∀ url, ledger_of dm' url = ledger_of dm url).
Proof.
  destruct (run_feed_fetch_raises w a f m1 ex Hraise)
    as (Hout & Hfile & Hlog & _ & Hwm & Hled).
  assert (main w a (before ++ f :: after) file0 = run_feed w a f m1) as ->.
  { unfold main. rewrite Hread, run_feeds_app, Hbefore. simpl.
    destruct (run_feed w a f m1) as [m2 [ex2|]]; [done|].
    simpl in Hout. by destruct Hout. }
  split; [done|]. split; [exact Hout|]. split; [exact Hfile|].
  split; [|split; [exact Hwm|exact Hled]].
  eexists. split; [exact Hlog|].
  destruct (verbose a); [|constructor].
  destruct (st_dupecheck (mem m1)); repeat constructor.
Qed.

Lemma fetch_failure_ends_run_witness :
  (main sample_world plain_args ([] ++ broken_feed :: [sample_feed]) None).2 = Some ParserError ∧
  file (main sample_world plain_args ([] ++ broken_feed :: [sample_feed]) None).1 = None.
Proof.
  destruct (fetch_failure_ends_run sample_world plain_args [] [sample_feed] broken_feed None
              {| st_updated := ∅; st_dupecheck := DMap ∅ |}
              {| mem := {| st_updated := ∅; st_dupecheck := DMap ∅ |};
                 file := None; log := []; ndraws := 0 |}
              ParserError eq_refl eq_refl eq_refl)
    as (_ & _ & Hfile & _ & _ & Hled).
  split; [|exact Hfile].
  exact (proj1 (Hled ∅ eq_refl)).
Defined.

(** ** Properties of the state file *)

(** [save_state] then [read_state] gives the state back when
    [state['dupecheck']] is the map by feed URL that [read_state] builds,
    for a timestamp codec that reads back what it writes. *)
Theorem state_round_trip (w : World) (st : state) (dm : gmap string ledger)
    (Hcodec : ∀ d, dateutil_parse w (isoformat w d) = Some d)
    (Hmap : st_dupecheck st = DMap dm) :
  read_state w (Some (save_state w st)) = Ok st.
Proof.
  unfold read_state, load_updated, load_dupecheck, save_state. simpl.
  rewrite (parse_timestamps_isoformat w (st_updated st) Hcodec). simpl.
  rewrite Hmap. simpl. rewrite (right_id_L ∅ (∪) dm).
  destruct st as [u d]. simpl in *. by rewrite Hmap.
Qed.

Lemma state_round_trip_witness :
  let st := {| st_updated := {[ "https://example.org/feed" := 2000000%N ]};
               st_dupecheck := DMap {[ "https://example.org/feed"
                                       := LList ["https://example.org/post"] ]} |} in
  read_state sample_world (Some (save_state sample_world st)) = Ok st.
Proof.
  intros st. exact (state_round_trip sample_world st _ sample_codec eq_refl).
Defined.



(** Two characters, not two bytes: a value of two Cyrillic letters loads,
    as a ledger that is the string of its second letter under the key of
    its first; a value of one such letter, two bytes long, does not. *)
Lemma update_from_strings_characters :
  update_from_strings ∅ [cyrillic_de +:+ cyrillic_de]
  = Ok {[ cyrillic_de := LStr cyrillic_de ]} ∧
  update_from_strings ∅ [cyrillic_de] = Raise ValueError ∧
  update_from_strings ∅ ["ab"] = Ok {[ "a" := LStr "b" ]}.
Proof. split; [|split]; reflexivity. Qed.



(** In a run that is not dry, the turn of the feed loop that follows a
    completed one raises [TypeError] at line 64, where it indexes the
    ledger line 105 has stored under [state['dupecheck']] by a feed URL:
    the second feed is not fetched, nothing is posted or saved for it, and
    the watermarks are as the first feed left them. *)
Lemma second_feed_raises_type_error (w : World) (a : args) (f1 f2 : feed) (m : machine)
    (Hdry : dry_run a = false)
    (Hdone : (run_feed w a f1 m).2 = None) :
  (run_feed w a f2 (run_feed w a f1 m).1).2 = Some TypeError ∧
  log (run_feed w a f2 (run_feed w a f1 m).1).1 = log (run_feed w a f1 m).1 ∧
  file (run_feed w a f2 (run_feed w a f1 m).1).1 = file (run_feed w a f1 m).1 ∧
  ndraws (run_feed w a f2 (run_feed w a f1 m).1).1 = ndraws (run_feed w a f1 m).1 ∧
  ∀ url, watermark (st_updated (mem (run_feed w a f2 (run_feed w a f1 m).1).1)) url
         = watermark (st_updated (mem (run_feed w a f1 m).1)) url.
Proof.
  destruct (run_feed w a f1 m) as [m1 r1] eqn:Hrun. simpl in *.
  assert (∃ d, st_dupecheck (mem m1) = DLedger d) as [d Hd].
  { revert Hrun. unfold run_feed. rewrite Hdry.
    destruct (st_dupecheck (mem m)) as [dm|d0]; [|intros [= <- <-]; done].
    destruct (select_entries w (f_url f1) _) as [raws|ex]; [|intros [= <- <-]; done].
    rewrite run_yielded_eq.
    destruct (run_entries w a f1 _ _) as [s [ex|]]; [intros [= <- <-]; done|].
    destruct (yielded w raws).2 as [ex|]; intros [= <- <-]; [done|].
    by eexists. }
  unfold run_feed. rewrite Hd. simpl.
  repeat split. intros url. apply watermark_touch.
Qed.

(** A run of [main] that is not dry never reaches the end of a
    configuration of two feeds or more: it ends with an exception at the
    second feed at the latest, and the feeds after the second are never
    looked at.  When the first feed completes, the exception is the
    [TypeError] of line 64, and the run has done and saved what the first
    feed's turn did and nothing more. *)
Theorem two_feeds_never_complete (w : World) (a : args) (f1 f2 : feed) (rest : list feed)
    (file0 : option state_doc)
    (Hdry : dry_run a = false) :
  (∃ ex, (main w a (f1 :: f2 :: rest) file0).2 = Some ex) ∧
  main w a (f1 :: f2 :: rest) file0 = main w a [f1; f2] file0 ∧
  ∀ st0, read_state w file0 = Ok st0 →
    let first := run_feed w a f1 {| mem := st0; file := file0; log := []; ndraws := 0 |} in
    first.2 = None →
    (main w a (f1 :: f2 :: rest) file0).2 = Some TypeError ∧
    log (main w a (f1 :: f2 :: rest) file0).1 = log first.1 ∧
    file (main w a (f1 :: f2 :: rest) file0).1 = file first.1.
Proof.
  unfold main. destruct (read_state w file0) as [st|ex];
    [|split; [by eexists|]; split; [done|]; intros st0 [=]].
  simpl. set (m0 := {| mem := st; file := file0; log := []; ndraws := 0 |}).
  pose proof (second_feed_raises_type_error w a f1 f2 m0 Hdry) as Hsecond.
  destruct (run_feed w a f1 m0) as [m1 [ex|]] eqn:Hfirst.
  { split; [by eexists|]. split; [done|].
    intros st0 [= <-]. fold m0. by rewrite Hfirst. }
  simpl in Hsecond. destruct (Hsecond eq_refl) as (Hout & Hlog & Hfile & _).
  destruct (run_feed w a f2 m1) as [m2 r2]. simpl in *. subst r2.
  split; [by eexists|]. split; [done|].
  intros st0 [= <-]. fold m0. rewrite Hfirst. done.
Qed.

Lemma two_feeds_never_complete_witness :
  (∃ ex, (main sample_world plain_args [gallery_feed; sample_feed; broken_feed] None).2 = Some ex) ∧
  main sample_world plain_args [gallery_feed; sample_feed; broken_feed] None
  = main sample_world plain_args [gallery_feed; sample_feed] None.
Proof.
  destruct (two_feeds_never_complete sample_world plain_args gallery_feed sample_feed [broken_feed]
              None eq_refl) as (Hraises & Hsame & _).
  by split.
Defined.

(** ** Properties of the image finder *)

Lemma collect_urls_spec (srcs : list (option string)) (acc : list string) :
  NoDup acc →
  NoDup (foldl collect_url acc srcs) ∧
  (∀ u, u ∈ foldl collect_url acc srcs ↔ u ∈ acc ∨ (u ≠ "" ∧ Some u ∈ srcs)) ∧
  foldl collect_url acc srcs `sublist_of` acc ++ omap id srcs.
Proof.
  revert acc. induction srcs as [|src srcs IH]; intros acc Hnodup; simpl.
  - split; [done|]. split; [|by rewrite app_nil_r].
    intros u. split; [by left|]. intros [Hu|[_ Hu]]; [done|by apply elem_of_nil in Hu].
  - destruct src as [url|]; simpl.
    + destruct (str_truthy url && negb (bool_decide (url ∈ acc))) eqn:Hnew.
      * apply andb_true_iff in Hnew as [Htruthy Hfresh].
        apply negb_true_iff, bool_decide_eq_false in Hfresh.
        destruct (IH (acc ++ [url])) as (Hnd & Hmem & Hsub).
        { apply NoDup_app. split; [done|]. split; [|apply NoDup_singleton].
          intros x Hx Hx'. apply list_elem_of_singleton in Hx' as ->. done. }
        split; [done|]. split.
        -- intros u. rewrite Hmem, elem_of_app, list_elem_of_singleton, elem_of_cons.
           split.
           ++ intros [[Hu| ->]|[Hne Hu]]; [by left| |by right; split; [|right]].
              right. split; [by destruct url|by left].
           ++ intros [Hu|[Hne [[= ->]|Hu]]]; [by left; left|by left; right|by right].
        -- by rewrite <- app_assoc in Hsub.
      * destruct (IH acc Hnodup) as (Hnd & Hmem & Hsub).
        split; [done|]. split.
        -- intros u. rewrite Hmem, elem_of_cons. split.
           ++ intros [Hu|[Hne Hu]]; [by left|by right; split; [|right]].
           ++ intros [Hu|[Hne [[= ->]|Hu]]]; [by left| |by right].
              apply andb_false_iff in Hnew as [Hfalsy|Hseen]; [by destruct url|].
              apply negb_false_iff, bool_decide_eq_true in Hseen. by left.
        -- etrans; [exact Hsub|]. apply sublist_app; [done|]. by apply sublist_cons.
    + destruct (IH acc Hnodup) as (Hnd & Hmem & Hsub).
      split; [done|]. split; [|done].
      intros u. rewrite Hmem, elem_of_cons. split.
      * intros [Hu|[Hne Hu]]; [by left|by right; split; [|right]].
      * intros [Hu|[Hne [[=]|Hu]]]; [by left|by right].
Qed.

(** [find_images] answers [None] (a bare [return]) for an empty [html], and
    otherwise the [src] values of the [img] tags that are present and not
    empty, each once, in document order. *)
Theorem find_images_distinct_sources (w : World) (html : string) :
  find_images w "" = None ∧
  (find_images w html = None ↔ html = "") ∧
  ∀ urls, find_images w html = Some urls →
    NoDup urls ∧
    (∀ u, u ∈ urls ↔ u ≠ "" ∧ Some u ∈ soup_img_src w html) ∧
    urls `sublist_of` omap id (soup_img_src w html).
Proof.
  split; [done|]. split.
  - unfold find_images. destruct html; simpl; split; done.
  - intros urls. unfold find_images. destruct (negb (str_truthy html)); [done|].
    intros [= <-].
    destruct (collect_urls_spec (soup_img_src w html) [] NoDup_nil_2) as (Hnd & Hmem & Hsub).
    split; [done|]. split; [|done].
    intros u. rewrite Hmem. split; [|by right].
    intros [Hu|Hu]; [by apply elem_of_nil in Hu|done].
Qed.

Lemma find_images_distinct_sources_witness :
  find_images sample_world "<img src=a.png><img><img src=a.png><img src=b.png>"
  = Some ["a.png"; "b.png"] ∧
  NoDup ["a.png"; "b.png"].
Proof.
  split; [reflexivity|].
  exact (proj1 (proj2 (proj2 (find_images_distinct_sources sample_world
           "<img src=a.png><img><img src=a.png><img src=b.png>")) _ eq_refl)).
Defined.

(** ** Properties of the image loop and of the posts *)

Lemma posted_app (l1 l2 : list event) : posted (l1 ++ l2) = posted l1 ++ posted l2.
Proof. apply omap_app. Qed.

Lemma posted_images (evs : list event) :
  Forall (λ ev, is_image_event ev = true) evs → posted evs = [].
Proof.
  induction 1 as [|ev evs Hev _ IH]; [done|].
  destruct ev; simpl in *; done.
Qed.

Lemma image_trace_images (w : World) (images : list string) :
  Forall (λ ev, is_image_event ev = true) (image_trace w images).
Proof.
  induction images as [|image rest IH]; simpl; [constructor|].
  destruct (requests_get w image); repeat constructor; done.
Qed.

(** The image loop, whatever the answers: it adds image events only, one
    fetch per image it reaches, and touches nothing else. *)
Lemma upload_images_trace (w : World) (images : list string) (medias : list nat) (s : loop) :
  ∃ reached, reached `prefix_of` images ∧
    out (upload_images w images medias s).1 = out s ++ image_trace w reached ∧
    draws (upload_images w images medias s).1 = draws s ∧
    match (upload_images w images medias s).2 with
    | Ok medias' => reached = images ∧ ∃ ids, medias' = medias ++ ids ∧ Forall2 (uploads_as w) images ids
    | Raise ex => ex = RequestError ∨ ex = MastodonError
    end.
Proof.
  revert medias s. induction images as [|image rest IH]; intros medias s; simpl.
  - exists []. split; [done|]. split; [by rewrite app_nil_r|]. split; [done|].
    split; [done|]. exists []. split; [by rewrite app_nil_r|constructor].
  - destruct (requests_get w image) as [resp|] eqn:Hget.
    + destruct (media_post w resp) as [media|] eqn:Hpost.
      * destruct (IH (medias ++ [media]) (emit (MediaPost resp) (emit (HttpGet image) s)))
          as (reached & Hpre & Hout & Hdraws & Hres).
        exists (image :: reached). split; [by apply prefix_cons|].
        split; [|split; [done|]].
        -- rewrite Hout. simpl. rewrite Hget. by rewrite <- !app_assoc.
        -- destruct (upload_images w rest _ _).2 as [medias'|ex]; [|done].
           destruct Hres as (-> & ids & -> & Hids). split; [done|].
           exists (media :: ids). split; [by rewrite <- app_assoc|].
           constructor; [by exists resp|done].
      * exists [image]. split; [apply prefix_cons, prefix_nil|]. simpl. rewrite Hget.
        split; [by rewrite <- !app_assoc|]. split; [done|by right].
    + exists [image]. split; [apply prefix_cons, prefix_nil|]. simpl. rewrite Hget.
      split; [done|]. split; [done|by left].
Qed.

Lemma upload_images_fails (w : World) (images : list string) (medias : list nat) (s : loop)
    (image : string) :
  image ∈ images →
  requests_get w image = None ∨
  (∃ resp, requests_get w image = Some resp ∧ media_post w resp = None) →
  ∃ ex, (upload_images w images medias s).2 = Raise ex.
Proof.
  revert medias s. induction images as [|x rest IH]; intros medias s Hin Hfail;
    [by apply elem_of_nil in Hin|].
  simpl. destruct (requests_get w x) as [resp|] eqn:Hget; [|by eexists].
  destruct (media_post w resp) as [media|] eqn:Hpost; [|by eexists].
  apply elem_of_cons in Hin as [->|Hin]; [|by apply IH].
  destruct Hfail as [Hnone|(resp' & Hsome & Hnone)]; [congruence|].
  congruence.
Qed.

Lemma upload_images_ok (w : World) (images : list string) (ids medias : list nat) (s : loop) :
  Forall2 (uploads_as w) images ids →
  (upload_images w images medias s).2 = Ok (medias ++ ids) ∧
  out (upload_images w images medias s).1 = out s ++ image_trace w images ∧
  draws (upload_images w images medias s).1 = draws s.
Proof.
  intros Hids. revert medias s.
  induction Hids as [|image media images ids (resp & Hget & Hpost) _ IH]; intros medias s; simpl.
  - by rewrite !app_nil_r.
  - rewrite Hget, Hpost.
    destruct (IH (medias ++ [media]) (emit (MediaPost resp) (emit (HttpGet image) s)))
      as (-> & -> & ->).
    simpl. by rewrite <- !app_assoc.
Qed.

(** In a run that is not dry, for a feed that includes images and an entry
    that has some, [publish] fetches and uploads the first four images of
    the entry, in their order and no other, then posts the text with the
    media ids of those uploads, in that order: here when each of these
    fetches and uploads goes through.  What follows the post is the
    optional delay. *)
Theorem publish_attaches_first_four (w : World) (a : args) (f : feed) (text : string)
    (e : entry) (s : loop) (imgs : list string) (medias : list nat)
    (Hdry : dry_run a = false)
    (Hinclude : f_include_images f = true)
    (Himages : e_images e = Some imgs)
    (Hsome : imgs ≠ [])
    (Huploads : Forall2 (uploads_as w) (take 4 imgs) medias) :
  length medias = length imgs `min` 4 ∧
  ∃ tail,
    out (publish w a f text e s).1
    = out s ++ image_trace w (take 4 imgs)
            ++ StatusPost text medias (status_post w text medias) :: tail ∧
    Forall (λ ev, is_image_event ev = false ∧ posted [ev] = []) tail.
Proof.
  split.
  { apply Forall2_length in Huploads. rewrite length_take in Huploads. lia. }
  unfold publish. rewrite Hinclude, Himages, Hdry.
  destruct imgs as [|img imgs]; [done|].
  change (images_truthy (Some (img :: imgs))) with true.
  change (true && true) with true. cbv iota.
  change (default [] (Some (img :: imgs))) with (img :: imgs).
  destruct (upload_images_ok w (take 4 (img :: imgs)) medias [] s Huploads) as (Hres & Hout & _).
  destruct (upload_images w (take 4 (img :: imgs)) [] s) as [s' r]. simpl in Hres, Hout.
  subst r. change ([] ++ medias) with medias.
  destruct (status_post w text medias); [destruct (delay a)|]; simpl; rewrite Hout.
  - eexists. split; [by rewrite <- !app_assoc|]. repeat constructor.
  - exists []. split; [by rewrite <- !app_assoc|]. constructor.
  - exists []. split; [by rewrite <- !app_assoc|]. constructor.
Qed.

Lemma publish_attaches_first_four_witness :
  let e := {| e_url := "https://example.org/4"; e_link := "https://example.org/gallery";
              e_links := []; e_comments := ""; e_title := "Pictures"; e_summary := "";
              e_content := "";  e_hashtags := "";
              e_images := Some ["a.png"; "b.png"; "c.png"; "d.png"; "e.png"];
              e_updated := 3000000%N |} in
  let s := {| newest_post := 0%N; dupes := LList []; out := []; draws := 0 |} in
  ∃ tail,
    out (publish sample_world plain_args gallery_feed "Pictures" e s).1
    = out s ++ image_trace sample_world ["a.png"; "b.png"; "c.png"; "d.png"]
            ++ StatusPost "Pictures" [5; 5; 5; 5] true :: tail.
Proof.
  intros e s.
  assert (Forall2 (uploads_as sample_world) (take 4 ["a.png"; "b.png"; "c.png"; "d.png"; "e.png"])
            [5; 5; 5; 5]) as Huploads.
  { repeat constructor; eexists; split; reflexivity. }
  assert (["a.png"; "b.png"; "c.png"; "d.png"; "e.png"] ≠ []) as Hsome by done.
  destruct (publish_attaches_first_four sample_world plain_args gallery_feed "Pictures" e s
              _ _ eq_refl eq_refl eq_refl Hsome Huploads) as (_ & tail & Hout & _).
  exists tail. exact Hout.
Defined.

(** When the fetch or the upload of one of the first four images raises,
    the entry is not posted: [publish] ends with that exception, having
    added to the trace the fetches and uploads it got through and nothing
    else; no delay is drawn. *)
Theorem failed_image_blocks_post (w : World) (a : args) (f : feed) (text : string)
    (e : entry) (s : loop) (imgs : list string) (image : string)
    (Hinclude : f_include_images f = true)
    (Himages : e_images e = Some imgs)
    (Hin : image ∈ take 4 imgs)
    (Hfails : requests_get w image = None ∨
              ∃ resp, requests_get w image = Some resp ∧ media_post w resp = None) :
  ((publish w a f text e s).2 = Some RequestError ∨
   (publish w a f text e s).2 = Some MastodonError) ∧
  (∃ reached, reached `prefix_of` take 4 imgs ∧
     out (publish w a f text e s).1 = out s ++ image_trace w reached) ∧
  posted (out (publish w a f text e s).1) = posted (out s) ∧
  draws (publish w a f text e s).1 = draws s.
Proof.
  unfold publish. rewrite Hinclude, Himages.
  destruct imgs as [|img imgs]; [by apply elem_of_nil in Hin|].
  change (images_truthy (Some (img :: imgs))) with true.
  change (true && true) with true. cbv iota.
  change (default [] (Some (img :: imgs))) with (img :: imgs).
  destruct (upload_images_fails w (take 4 (img :: imgs)) [] s image Hin Hfails) as [ex Hex].
  destruct (upload_images_trace w (take 4 (img :: imgs)) [] s)
    as (reached & Hpre & Hout & Hdraws & Hres).
  destruct (upload_images w (take 4 (img :: imgs)) [] s) as [s' r]. simpl in *. subst r.
  split; [by destruct Hres as [->| ->]; [left|right]|].
  split; [by exists reached|]. split; [|done].
  simpl. rewrite Hout, posted_app, (posted_images _ (image_trace_images w reached)).
  apply app_nil_r.
Qed.

Lemma failed_image_blocks_post_witness :
  let w := {| feedparser_parse := feedparser_parse sample_world;
              utcnow := utcnow sample_world;
              dateutil_parse := dateutil_parse sample_world;
              isoformat := isoformat sample_world;
              str_format := str_format sample_world;
              cleanup := cleanup sample_world;
              soup_img_src := soup_img_src sample_world;
              requests_get url := if String.eqb url "b.png" then None
                                  else requests_get sample_world url;
              media_post := media_post sample_world;
              status_post := status_post sample_world;
              random_draw := random_draw sample_world;
              dateutil_naive := dateutil_naive sample_world |} in
  let e := {| e_url := "https://example.org/4"; e_link := "https://example.org/gallery";
              e_links := []; e_comments := ""; e_title := "Pictures"; e_summary := "";
              e_content := "";  e_hashtags := "";
              e_images := Some ["a.png"; "b.png"];
              e_updated := 3000000%N |} in
  let s := {| newest_post := 0%N; dupes := LList []; out := []; draws := 0 |} in
  posted (out (publish w plain_args gallery_feed "Pictures" e s).1) = posted (out s).
Proof.
  intros w e s.
  assert ("b.png" ∈ take 4 ["a.png"; "b.png"]) as Hin
    by apply list_elem_of_further, list_elem_of_here.
  exact (proj1 (proj2 (proj2
    (failed_image_blocks_post w plain_args gallery_feed "Pictures" e s ["a.png"; "b.png"] "b.png"
       eq_refl eq_refl Hin (or_introl eq_refl))))).
Defined.

(** ** The posts of a run, in order *)

Lemma publish_posted (w : World) (a : args) (f : feed) (text : string) (e : entry) (s : loop) :
  dry_run a = false → (publish w a f text e s).2 = None →
  posted (out (publish w a f text e s).1) = posted (out s) ++ [text].
Proof.
  intros Hdry. unfold publish. rewrite Hdry.
  destruct (f_include_images f && images_truthy (e_images e)).
  - destruct (upload_images_trace w (take 4 (default [] (e_images e))) [] s)
      as (reached & _ & Hout & _ & _).
    destruct (upload_images w (take 4 (default [] (e_images e))) [] s) as [s' [medias|ex]];
      [|done].
    simpl in Hout.
    destruct (status_post w text medias); [|done].
    destruct (delay a); simpl; intros _;
      rewrite Hout, !posted_app, (posted_images _ (image_trace_images w reached)); simpl;
      by rewrite ?app_nil_r.
  - destruct (status_post w text []); [|done].
    destruct (delay a); simpl; intros _; rewrite !posted_app; simpl; by rewrite ?app_nil_r.
Qed.

Lemma process_entry_posted (w : World) (a : args) (f : feed) (e : entry) (s : loop) :
  dry_run a = false → dedupe a = None → (process_entry w a f e s).2 = None →
  ∃ text, entry_text w (f_template f) e = Ok text ∧
          posted (out (process_entry w a f e s).1) = posted (out s) ++ [text].
Proof.
  intros Hdry Hdedupe. unfold process_entry. rewrite Hdry, Hdedupe.
  destruct (entry_text w (f_template f) e) as [text|ex]; [|done].
  intros Hnone. exists text. split; [done|].
  rewrite (publish_posted _ _ _ _ _ _ Hdry Hnone).
  destruct (verbose a); simpl; [|done].
  rewrite posted_app. simpl. by rewrite app_nil_r.
Qed.

Lemma run_entries_posted (w : World) (a : args) (f : feed) (entries : list entry) (s : loop) :
  dry_run a = false → dedupe a = None → (run_entries w a f entries s).2 = None →
  ∃ texts, Forall2 (λ e text, entry_text w (f_template f) e = Ok text) entries texts ∧
           posted (out (run_entries w a f entries s).1) = posted (out s) ++ texts.
Proof.
  intros Hdry Hdedupe. revert s.
  induction entries as [|e rest IH]; intros s; simpl.
  - intros _. exists []. split; [constructor|by rewrite app_nil_r].
  - pose proof (process_entry_posted w a f e s Hdry Hdedupe) as He.
    destruct (process_entry w a f e s) as [s' [ex|]]; [done|]. intros Hnone.
    destruct (He eq_refl) as (text & Htext & Hposted).
    destruct (IH s' Hnone) as (texts & Htexts & Hrest).
    exists (text :: texts). split; [by constructor|].
    simpl in Hposted. rewrite Hrest, Hposted. by rewrite <- app_assoc.
Qed.

(** A run of [main] over one feed that is not dry, does not dedupe and
    reaches its end has posted the text of every entry [get_feed] yielded
    since the loaded watermark, once each and in the order [get_feed]
    yielded them, and nothing else. *)
Theorem single_feed_posts_in_order (w : World) (a : args) (f : feed)
    (file0 : option state_doc) (st0 : state)
    (Hdry : dry_run a = false)
    (Hdedupe : dedupe a = None)
    (Hread : read_state w file0 = Ok st0)
    (Hdone : (main w a [f] file0).2 = None) :
  ∃ entries texts,
    get_feed w (f_url f) (Some (watermark (st_updated st0) (f_url f))) = Ok entries ∧
    Forall2 (λ e text, entry_text w (f_template f) e = Ok text) entries texts ∧
    posted (log (main w a [f] file0).1) = texts.
Proof.
  revert Hdone. unfold main. rewrite Hread. simpl. unfold run_feed. simpl. rewrite Hdry.
  destruct (st_dupecheck st0) as [dm|d]; [|done].
  match goal with |- context [select_entries w ?url ?last] =>
    pose proof (get_feed_yielded w url last) as Hfeed;
    destruct (select_entries w url last) as [raws|ex]; [|done]
  end.
  rewrite run_yielded_eq.
  match goal with |- context [run_entries w a f ?entries ?s0] =>
    pose proof (run_entries_posted w a f entries s0 Hdry Hdedupe) as Hposted;
    destruct (run_entries w a f entries s0) as [s r]
  end.
  destruct r as [ex|]; [done|].
  destruct (yielded w raws).2 as [ex|]; [done|]. intros _.
  destruct (Hposted eq_refl) as (texts & Htexts & Hout).
  exists (yielded w raws).1, texts. split; [done|]. split; [done|].
  simpl in *. rewrite posted_app, Hout. simpl.
  destruct (verbose a); simpl; by rewrite app_nil_r.
Qed.

Lemma single_feed_posts_in_order_witness :
  posted (log (main sample_world plain_args [sample_feed] None).1)
  = ["Hello https://example.org/1"; "Hello https://example.org/2"].
Proof.
  destruct (single_feed_posts_in_order sample_world plain_args sample_feed None
              {| st_updated := ∅; st_dupecheck := DMap ∅ |} eq_refl eq_refl eq_refl eq_refl)
    as (entries & texts & Hfeed & Htexts & ->).
  vm_compute in Hfeed. injection Hfeed as <-.
  inversion Htexts as [|e1 t1 l1 r1 H1 Hrest1]; subst.
  inversion Hrest1 as [|e2 t2 l2 r2 H2 Hrest2]; subst.
  inversion Hrest2; subst.
  vm_compute in H1. vm_compute in H2. injection H1 as <-. injection H2 as <-.
  reflexivity.
Defined.

Lemma yielded_app_raise (w : World) (before rest : list raw_entry) (raw : raw_entry)
    (entries : list entry) (ex : exn) :
  Forall2 (λ raw e, get_entry w raw = Ok e) before entries →
  get_entry w raw = Raise ex →
  yielded w (before ++ raw :: rest) = (entries, Some ex).
Proof.
  intros Hbefore Hraise.
  induction Hbefore as [|x e before entries Hx _ IH]; simpl.
  - by rewrite Hraise.
  - by rewrite Hx, IH.
Qed.

(** An entry [get_entry] cannot build (an item without [id], [link] or
    [title], say) stops the generator where the entry stands in the sorted
    feed, not before: the entries sorted before it have gone through the
    body of the loop of [main] by then.  The run ends with the exception
    of the body if the body raised for one of them, and with the one of
    [get_entry] otherwise; its trace is the trace of the loop over the
    entries before; the state file is left as it was; and in a run that is
    not dry and does not dedupe, every entry before has been posted, in
    order, when [get_entry] raises. *)
Theorem entry_failure_follows_posts (w : World) (a : args) (f : feed) (after : list feed)
    (file0 : option state_doc) (st0 : state) (dm : gmap string ledger)
    (before rest : list raw_entry) (raw : raw_entry) (entries : list entry) (ex : exn)
    (Hread : read_state w file0 = Ok st0)
    (Hmap : st_dupecheck st0 = DMap dm)
    (Hsel : select_entries w (f_url f) (Some (watermark (st_updated st0) (f_url f)))
            = Ok (before ++ raw :: rest))
    (Hbefore : Forall2 (λ raw e, get_entry w raw = Ok e) before entries)
    (Hraise : get_entry w raw = Raise ex) :
  let newest := watermark (st_updated st0) (f_url f) in
  let s0 := {| newest_post := newest; dupes := ledger_of dm (f_url f);
               out := if verbose a then [PrintFetching (f_url f) newest] else [];
               draws := 0 |} in
  let turn := run_entries w a f entries s0 in
  yielded w (before ++ raw :: rest) = (entries, Some ex) ∧
  get_feed w (f_url f) (Some newest) = Raise ex ∧
  (main w a (f :: after) file0).2 = Some (default ex turn.2) ∧
  log (main w a (f :: after) file0).1 = out turn.1 ∧
  file (main w a (f :: after) file0).1 = file0 ∧
  (dry_run a = false → dedupe a = None → turn.2 = None →
   ∃ texts, Forall2 (λ e text, entry_text w (f_template f) e = Ok text) entries texts ∧
            posted (log (main w a (f :: after) file0).1) = texts).
Proof.
  intros newest s0 turn.
  pose proof (yielded_app_raise w before rest raw entries ex Hbefore Hraise) as Hyield.
  split; [exact Hyield|]. split.
  { rewrite get_feed_yielded. unfold newest. by rewrite Hsel, Hyield. }
  assert (main w a (f :: after) file0
          = ({| mem := {| st_updated := <[f_url f := newest]> (st_updated st0);
                          st_dupecheck := DMap (<[f_url f := dupes turn.1]> dm) |};
                file := file0; log := out turn.1; ndraws := draws turn.1 |},
             Some (default ex turn.2))) as ->.
  { subst turn s0 newest. unfold main. rewrite Hread. simpl. unfold run_feed. simpl.
    rewrite Hmap, Hsel, run_yielded_eq, Hyield. simpl.
    match goal with |- context [run_entries w a f entries ?s0] =>
      by destruct (run_entries w a f entries s0) as [s [ex'|]]
    end. }
  simpl. split; [done|]. split; [done|]. split; [done|].
  intros Hdry Hdedupe Hnone.
  destruct (run_entries_posted w a f entries s0 Hdry Hdedupe Hnone) as (texts & Htexts & Hposted).
  exists texts. split; [exact Htexts|]. fold turn in Hposted. rewrite Hposted.
  simpl. by destruct (verbose a).
Qed.

Lemma entry_failure_follows_posts_witness :
  (main sample_world plain_args [mixed_feed; sample_feed] None).2 = Some AttributeError ∧
  posted (log (main sample_world plain_args [mixed_feed; sample_feed] None).1)
  = ["Hello https://example.org/1"] ∧
  file (main sample_world plain_args [mixed_feed; sample_feed] None).1 = None.
Proof.
  destruct (entry_failure_follows_posts sample_world plain_args mixed_feed [sample_feed] None
              {| st_updated := ∅; st_dupecheck := DMap ∅ |} ∅
              [raw_first] [] raw_anonymous [entry_first] AttributeError
              eq_refl eq_refl eq_refl)
    as (_ & _ & Hends & _ & Hfile & Hposts).
  { by repeat constructor. }
  { reflexivity. }
  split; [exact Hends|]. split; [|exact Hfile].
  destruct (Hposts eq_refl eq_refl eq_refl) as (texts & Htexts & ->).
  inversion Htexts as [|e1 t1 l1 r1 H1 Hrest1]; subst.
  inversion Hrest1; subst.
  vm_compute in H1. by injection H1 as <-.
Defined.

(** ** Properties of the hashtags *)

Lemma str_app_chars (a b : string) (c : ascii) :
  In c (list_ascii_of_string (a +:+ b)) →
  In c (list_ascii_of_string a) ∨ In c (list_ascii_of_string b).
Proof.
  induction a as [|y a IH]; [by right|].
  change (String y a +:+ b) with (String y (a +:+ b)).
  simpl. intros [->|Hin]; [by left; left|].
  destruct (IH Hin) as [?|?]; [by left; right|by right].
Qed.

Lemma str_replace_chars (old : ascii) (new s : string) (c : ascii) :
  In c (list_ascii_of_string (str_replace old new s)) →
  In c (list_ascii_of_string new) ∨ (c ≠ old ∧ In c (list_ascii_of_string s)).
Proof.
  induction s as [|x s IH]; simpl; [done|].
  destruct (Ascii.eqb x old) eqn:Hx.
  - intros Hin.
    assert (In c (list_ascii_of_string new) ∨ In c (list_ascii_of_string (str_replace old new s)))
      as [Hnew|Hrest].
    { by apply str_app_chars. }
    + by left.
    + destruct (IH Hrest) as [?|[? ?]]; [by left|by right; split; [|right]].
  - apply Ascii.eqb_neq in Hx. simpl. intros [<-|Hin].
    + right. split; [done|by left].
    + destruct (IH Hin) as [?|[? ?]]; [by left|by right; split; [|right]].
Qed.

Lemma str_replace_length (old : ascii) (new s : string) :
  String.length new ≤ 1 → String.length (str_replace old new s) ≤ String.length s.
Proof.
  intros Hnew. induction s as [|x s IH]; simpl; [done|].
  destruct (Ascii.eqb x old); simpl; [|lia].
  destruct new as [|y [|z new]]; simpl in Hnew; [| |lia].
  - change (EmptyString +:+ str_replace old EmptyString s) with (str_replace old EmptyString s).
    lia.
  - change (String y EmptyString +:+ str_replace old (String y EmptyString) s)
      with (String y (str_replace old (String y EmptyString) s)).
    simpl. lia.
Qed.

Lemma str_app_list (a b : string) :
  list_ascii_of_string (a +:+ b) = list_ascii_of_string a ++ list_ascii_of_string b.
Proof.
  induction a as [|x a IH]; [done|].
  change (String x a +:+ b) with (String x (a +:+ b)). simpl. by rewrite IH.
Qed.

Lemma str_replace_list (old : ascii) (new s : string) :
  list_ascii_of_string (str_replace old new s)
  = flat_map (λ c, if Ascii.eqb c old then list_ascii_of_string new else [c])
      (list_ascii_of_string s).
Proof.
  induction s as [|x s IH]; simpl; [done|].
  destruct (Ascii.eqb x old); [by rewrite str_app_list, IH|].
  simpl. by rewrite IH.
Qed.

Lemma flat_map_twice {A B C : Type} (f : A → list B) (g : B → list C) (l : list A) :
  flat_map g (flat_map f l) = flat_map (λ x, flat_map g (f x)) l.
Proof.
  induction l as [|x l IH]; simpl; [done|].
  by rewrite flat_map_app, IH.
Qed.

Lemma str_app_len (a b : string) : str_len (a +:+ b) = str_len a + str_len b.
Proof.
  induction a as [|x a IH]; [done|].
  change (String x a +:+ b) with (String x (a +:+ b)). simpl. rewrite IH. lia.
Qed.

Lemma str_replace_len (old : ascii) (new s : string) :
  is_continuation old = false → str_len new ≤ 1 →
  str_len (str_replace old new s) ≤ str_len s.
Proof.
  intros Hold Hnew. induction s as [|x s IH]; simpl; [done|].
  destruct (Ascii.eqb x old) eqn:Hx.
  - apply Ascii.eqb_eq in Hx as ->. rewrite Hold, str_app_len. lia.
  - simpl. lia.
Qed.

(** A hashtag is a [#] followed by the tag's term with its spaces turned
    into underscores and its dots and hyphens removed, and nothing else:
    character by character, what follows the [#] is the term with each
    space replaced by an underscore, each dot and each hyphen dropped and
    every other character kept, in order.  So it holds no space, dot or
    hyphen, only characters of the term and underscores, it is no longer
    than the term, and it is the term itself when the term has none of
    the three characters. *)
Theorem hashtag_has_no_separator (term : string) :
  ∃ body, hashtag term = String "#" body ∧
          list_ascii_of_string body = flat_map tag_char (list_ascii_of_string term) ∧
          String.length body ≤ String.length term ∧
          str_len body ≤ str_len term ∧
          (∀ c, In c (list_ascii_of_string body) →
                c ≠ " "%char ∧ c ≠ "."%char ∧ c ≠ "-"%char ∧
                (c = "_"%char ∨ In c (list_ascii_of_string term))) ∧
          ((∀ c, In c (list_ascii_of_string term) →
                 c ≠ " "%char ∧ c ≠ "."%char ∧ c ≠ "-"%char) →
           body = term).
Proof.
  exists (str_replace "-" "" (str_replace "." "" (str_replace " " "_" term))).
  assert (list_ascii_of_string
            (str_replace "-" "" (str_replace "." "" (str_replace " " "_" term)))
          = flat_map tag_char (list_ascii_of_string term)) as Hlist.
  { rewrite !str_replace_list, !flat_map_twice. apply flat_map_ext. intros c.
    unfold tag_char. destruct (Ascii.eqb c " ") eqn:Hspace; [done|].
    simpl. destruct (Ascii.eqb c ".") eqn:Hdot; [done|].
    simpl. destruct (Ascii.eqb c "-") eqn:Hhyphen; [done|]. done. }
  split; [done|]. split; [exact Hlist|]. split; [|split; [|split]].
  - etrans; [apply str_replace_length; simpl; lia|].
    etrans; [apply str_replace_length; simpl; lia|].
    apply str_replace_length. simpl. lia.
  - etrans; [apply str_replace_len; [done|simpl; lia]|].
    etrans; [apply str_replace_len; [done|simpl; lia]|].
    apply str_replace_len; [done|simpl; lia].
  - intros c Hc.
    apply str_replace_chars in Hc as [[]|[Hhyphen Hc]].
    apply str_replace_chars in Hc as [[]|[Hdot Hc]].
    apply str_replace_chars in Hc as [[<-|[]]|[Hspace Hc]].
    + repeat split; try done. by left.
    + repeat split; try done. by right.
  - intros Hplain.
    assert (∀ x y, list_ascii_of_string x = list_ascii_of_string y → x = y) as Hinj.
    { intros x y Hxy. rewrite <- (string_of_list_ascii_of_string x), Hxy.
      apply string_of_list_ascii_of_string. }
    apply Hinj. rewrite Hlist. clear Hlist Hinj.
    induction (list_ascii_of_string term) as [|c l IH]; [done|].
    destruct (Hplain c (or_introl eq_refl)) as (Hspace & Hdot & Hhyphen).
    cbn [flat_map]. unfold tag_char at 1.
    apply Ascii.eqb_neq in Hspace, Hdot, Hhyphen. rewrite Hspace, Hdot, Hhyphen.
    simpl. f_equal. apply IH. intros c' Hc'. apply Hplain. by right.
Qed.

(** The tags of the sample entries, and a bare [#] for an empty term or a
    term made of separators only. *)
Lemma hashtag_examples :
  hashtag "rocq prover" = "#rocq_prover" ∧ hashtag "v9.3" = "#v93" ∧
  hashtag "e-mail" = "#email" ∧ hashtag "" = "#" ∧ hashtag ".-" = "#".
Proof. by vm_compute. Qed.

(** ** Properties of the setup wizard *)

(** [yes_no] takes an answer for a yes exactly when its lower case is a
    substring of ["y1"]: the empty answer, [y], [1] or [y1].  So an empty
    line counts as a yes, and the word [yes] as a no. *)
Theorem yes_no_accepts (d : Desk) (res : string) :
  (yes_no d res = true ↔ str_lower d res ∈ [""; "y"; "1"; "y1"]) ∧
  (str_lower d res = "" → yes_no d res = true) ∧
  (str_lower d res = "yes" → yes_no d res = false) ∧
  (str_lower d res = "n" → yes_no d res = false).
Proof.
  unfold yes_no. split; [|by repeat split; intros ->].
  rewrite !elem_of_cons, elem_of_nil.
  destruct (str_lower d res) as [|a [|b [|c x]]]; simpl.
  - intuition congruence.
  - destruct (ascii_dec a "y") as [->|Hy]; [intuition congruence|].
    destruct (ascii_dec a "1") as [->|H1]; [intuition congruence|].
    simpl. intuition congruence.
  - destruct (ascii_dec a "y") as [->|Hy].
    + destruct (ascii_dec b "1") as [->|H1]; [intuition congruence|]. simpl. intuition congruence.
    + destruct (ascii_dec a "1") as [->|H1]; simpl; intuition congruence.
  - destruct (ascii_dec a "y") as [->|Hy].
    + destruct (ascii_dec b "1") as [->|H1]; simpl; intuition congruence.
    + destruct (ascii_dec a "1") as [->|H1]; simpl; intuition congruence.
Qed.

(** On a state whose [updated] holds [datetime]s only, [save_state] is the
    [save_state] of the run. *)
Lemma save_state_stamps_dates (w : World) (u : gmap string datetime) (dc : dupecheck_obj) :
  save_state_stamps w (Stamp <$> u) dc = Ok (save_state w {| st_updated := u; st_dupecheck := dc |}).
Proof.
  unfold save_state_stamps, save_state. simpl.
  rewrite bool_decide_eq_true_2.
  - assert (omap stamp_date (Stamp <$> u) = u) as ->; [|done].
    apply map_eq. intros url.
    rewrite lookup_omap, lookup_fmap. by destruct (u !! url).
  - intros url v Hv. rewrite lookup_fmap in Hv.
    destruct (u !! url); simpl in Hv; [|done]. injection Hv as <-. by eexists.
Qed.

(** One string among the values makes [save_state] raise. *)
Lemma save_state_stamps_string (w : World) (updated : gmap string stamp) (dc : dupecheck_obj)
    (url s : string) :
  updated !! url = Some (StampStr s) → save_state_stamps w updated dc = Raise AttributeError.
Proof.
  intros Hurl. unfold save_state_stamps.
  rewrite bool_decide_eq_false_2; [done|].
  intros Hall. by destruct (Hall url _ Hurl).
Qed.

(** Declining to post the existing entries ends the wizard with an
    [AttributeError]: line 261 stores the clock as a string, on which
    [save_state] calls [isoformat].  By then the configuration has been
    written; the state file is left as it was, so no watermark is kept for
    the new feed. *)
Theorem setup_declining_old_posts_raises (w : World) (d : Desk) (answers : list string)
    (state_file0 : option state_doc) (cr : credentials)
    (feed_url old_posts include_images : string) (rest : list string) (st : state)
    (Hasked : ask_credentials d answers = inr cr)
    (Hanswers : cr_answers cr = feed_url :: old_posts :: include_images :: rest)
    (Hread : read_state w state_file0 = Ok st)
    (Hdecline : yes_no d old_posts = false) :
  setup w d answers state_file0
  = {| config_file :=
         Some {| c_name := cr_name cr; c_url := cr_url cr; c_client_id := cr_client_id cr;
                 c_client_secret := cr_client_secret cr; c_access_token := cr_access_token cr;
                 c_feeds := [{| f_url := feed_url; f_template := "{title} {url}";
                                f_include_images := yes_no d include_images |}] |};
       state_file := state_file0;
       raised := Some (Raised AttributeError) |}.
Proof.
  unfold setup. rewrite Hasked, Hanswers, Hread, Hdecline.
  by rewrite (save_state_stamps_string w _ _ feed_url (isoformat w (clock d)))
    by apply lookup_insert_eq.
Qed.

Lemma setup_declining_old_posts_raises_witness :
  raised (setup sample_world sample_desk
            ["https://mastodon.example"; "Y"; "id"; "secret"; "token";
             "https://example.org/feed"; "n"; "yes"] None)
  = Some (Raised AttributeError) ∧
  state_file (setup sample_world sample_desk
            ["https://mastodon.example"; "Y"; "id"; "secret"; "token";
             "https://example.org/feed"; "n"; "yes"] None)
  = None.
Proof.
  rewrite (setup_declining_old_posts_raises sample_world sample_desk
             ["https://mastodon.example"; "Y"; "id"; "secret"; "token";
              "https://example.org/feed"; "n"; "yes"] None
             {| cr_url := "https://mastodon.example"; cr_name := "feediverse";
                cr_client_id := "id"; cr_client_secret := "secret";
                cr_access_token := "token";
                cr_answers := ["https://example.org/feed"; "n"; "yes"] |}
             "https://example.org/feed" "n" "yes" []
             {| st_updated := ∅; st_dupecheck := DMap ∅ |}
             eq_refl eq_refl eq_refl eq_refl).
  split; reflexivity.
Defined.

(** Accepting to post the existing entries, the wizard writes the
    configuration with its one feed and saves the state it has read; the
    state file then reads back as that state, for a timestamp codec that
    reads back what it writes. *)
Theorem setup_accepting_old_posts_saves (w : World) (d : Desk) (answers : list string)
    (state_file0 : option state_doc) (cr : credentials)
    (feed_url old_posts include_images : string) (rest : list string) (st : state)
    (Hcodec : ∀ t, dateutil_parse w (isoformat w t) = Some t)
    (Hasked : ask_credentials d answers = inr cr)
    (Hanswers : cr_answers cr = feed_url :: old_posts :: include_images :: rest)
    (Hread : read_state w state_file0 = Ok st)
    (Haccept : yes_no d old_posts = true) :
  setup w d answers state_file0
  = {| config_file :=
         Some {| c_name := cr_name cr; c_url := cr_url cr; c_client_id := cr_client_id cr;
                 c_client_secret := cr_client_secret cr; c_access_token := cr_access_token cr;
                 c_feeds := [{| f_url := feed_url; f_template := "{title} {url}";
                                f_include_images := yes_no d include_images |}] |};
       state_file := Some (save_state w st);
       raised := None |} ∧
  read_state w (state_file (setup w d answers state_file0)) = Ok st.
Proof.
  assert (∃ dm, st_dupecheck st = DMap dm) as [dm Hdm].
  { unfold read_state in Hread. destruct state_file0 as [doc|].
    - destruct (load_updated w doc); simpl in Hread; [|done].
      destruct (load_dupecheck doc); simpl in Hread; [|done].
      injection Hread as <-. by eexists.
    - injection Hread as <-. by eexists. }
  assert (setup w d answers state_file0
          = {| config_file :=
                 Some {| c_name := cr_name cr; c_url := cr_url cr;
                         c_client_id := cr_client_id cr;
                         c_client_secret := cr_client_secret cr;
                         c_access_token := cr_access_token cr;
                         c_feeds := [{| f_url := feed_url; f_template := "{title} {url}";
                                        f_include_images := yes_no d include_images |}] |};
               state_file := Some (save_state w st);
               raised := None |}) as Hsetup.
  { unfold setup. rewrite Hasked, Hanswers, Hread, Haccept, save_state_stamps_dates.
    by destruct st. }
  split; [exact Hsetup|]. rewrite Hsetup. simpl.
  unfold read_state, load_updated, load_dupecheck, save_state. simpl.
  rewrite (parse_timestamps_isoformat w (st_updated st) Hcodec). simpl.
  rewrite Hdm. simpl. rewrite (right_id_L ∅ (∪) dm).
  destruct st as [u dc]. simpl in *. by rewrite Hdm.
Qed.

Lemma setup_accepting_old_posts_saves_witness :
  raised (setup sample_world sample_desk
            ["https://mastodon.example"; "no"; "feediverse"; "me@example.org"; "secret";
             "https://example.org/feed"; ""; "1"] None)
  = None.
Proof.
  rewrite (proj1 (setup_accepting_old_posts_saves sample_world sample_desk
             ["https://mastodon.example"; "no"; "feediverse"; "me@example.org"; "secret";
              "https://example.org/feed"; ""; "1"] None
             {| cr_url := "https://mastodon.example"; cr_name := "feediverse";
                cr_client_id := "id"; cr_client_secret := "secret";
                cr_access_token := "token";
                cr_answers := ["https://example.org/feed"; ""; "1"] |}
             "https://example.org/feed" "" "1" []
             {| st_updated := ∅; st_dupecheck := DMap ∅ |}
             sample_codec eq_refl eq_refl eq_refl eq_refl)).
  reflexivity.
Defined.

(** ** Properties of the text cleaner *)

Lemma repeat_shift {A : Type} (x : A) (n : nat) (t : list A) :
  repeat x n ++ x :: t = repeat x (S n) ++ t.
Proof. induction n as [|n IH]; simpl; [done|]. by rewrite IH. Qed.

Lemma flush_repeat (c : N) (k j m : nat) :
  0 < j → 0 < k →
  ∃ i, flush c k (repeat c j) m = repeat c i ∧ (k ≤ m → i = j) ∧ (m < k → i = m) ∧
       (i = 0 ↔ m = 0).
Proof.
  intros Hj Hk. unfold flush. destruct (k <=? m) eqn:Hm.
  - apply Nat.leb_le in Hm. exists j. repeat split; (lia || done).
  - apply Nat.leb_gt in Hm. exists m. repeat split; (lia || done).
Qed.

Lemma short_runs_repeat (c : N) (k n i : nat) (t : list N) :
  short_runs c k n (repeat c i ++ t) ↔ short_runs c k (n + i) t.
Proof.
  revert n. induction i as [|i IH]; intros n; simpl.
  - by rewrite Nat.add_0_r.
  - rewrite N.eqb_refl, IH. by replace (S n + i) with (n + S i) by lia.
Qed.

Lemma short_runs_bound (c : N) (k n : nat) (t : list N) :
  short_runs c k n t → n < k.
Proof.
  revert n. induction t as [|x t IH]; intros n; simpl; [done|].
  destruct (x =? c)%N; [|by intros [? _]].
  intros Hrun. apply IH in Hrun. lia.
Qed.

Lemma short_runs_mono (c : N) (k n n' : nat) (t : list N) :
  n' ≤ n → short_runs c k n t → short_runs c k n' t.
Proof.
  revert n n'. induction t as [|x t IH]; intros n n' Hle; simpl; [lia|].
  destruct (x =? c)%N.
  - apply IH. lia.
  - intros [? ?]. split; [lia|done].
Qed.

Lemma short_runs_suffix (c : N) (k n : nat) (l t : list N) :
  short_runs c k n (l ++ t) → short_runs c k 0 t.
Proof.
  revert n. induction l as [|x l IH]; intros n; simpl.
  - apply short_runs_mono. lia.
  - destruct (x =? c)%N; [apply IH|]. intros [_ Hrun]. by apply IH in Hrun.
Qed.

Lemma short_runs_prefix (c : N) (k n : nat) (t l : list N) :
  short_runs c k n (t ++ l) → short_runs c k n t.
Proof.
  revert n. induction t as [|x t IH]; intros n; simpl.
  - apply short_runs_bound.
  - destruct (x =? c)%N; [apply IH|]. intros [? Hrun]. split; [done|by apply IH].
Qed.

Lemma short_runs_other (a c : N) (k n i : nat) (t : list N) :
  a ≠ c → 0 < i →
  short_runs a k n (repeat c i ++ t) ↔ n < k ∧ short_runs a k 0 t.
Proof.
  intros Hac Hi. apply N.eqb_neq in Hac. rewrite N.eqb_sym in Hac.
  destruct i as [|i]; [lia|]. simpl. rewrite Hac.
  assert (short_runs a k 0 (repeat c i ++ t) ↔ short_runs a k 0 t) as ->; [|done].
  clear Hi. induction i as [|i IH]; simpl; [done|]. rewrite Hac, IH.
  split; [by intros [_ ?]|]. intros Hrun. split; [|done].
  by apply short_runs_bound in Hrun.
Qed.

Lemma notin_short_runs (c : N) (t : list N) : c ∉ t → short_runs c 1 0 t.
Proof.
  induction t as [|x t IH]; simpl; [lia|]. rewrite not_elem_of_cons. intros [Hx Ht].
  destruct (x =? c)%N eqn:Heq; [by apply N.eqb_eq in Heq|].
  split; [lia|by apply IH].
Qed.

(** What [re.sub] does to the runs it looks for. *)
Lemma sub_run_short_runs (c : N) (k j m : nat) (t : list N) :
  0 < j → j < k → short_runs c k 0 (sub_run c k (repeat c j) m t).
Proof.
  intros Hj Hjk. revert m. induction t as [|x t IH]; intros m; simpl.
  - destruct (flush_repeat c k j m) as (i & -> & Hge & Hlt & _); [lia..|].
    rewrite <- (app_nil_r (repeat c i)). apply short_runs_repeat. simpl.
    destruct (decide (k ≤ m)); [rewrite Hge|rewrite Hlt]; lia.
  - destruct (x =? c)%N eqn:Hx; [apply IH|].
    destruct (flush_repeat c k j m) as (i & -> & Hge & Hlt & _); [lia..|].
    apply short_runs_repeat. simpl. rewrite Hx. split; [|apply IH].
    destruct (decide (k ≤ m)); [rewrite Hge|rewrite Hlt]; lia.
Qed.

Lemma sub_run_removes (c : N) (repl : list N) (m : nat) (t : list N) :
  c ∉ repl → c ∉ sub_run c 1 repl m t.
Proof.
  intros Hrepl. revert m. induction t as [|x t IH]; intros m; simpl.
  - unfold flush. destruct m; simpl; [apply not_elem_of_nil|done].
  - destruct (x =? c)%N eqn:Hx; [apply IH|]. apply N.eqb_neq in Hx.
    rewrite elem_of_app, elem_of_cons. intros [Hflush|[->|Hrest]]; [|done|by apply (IH 0)].
    unfold flush in Hflush. destruct m; simpl in Hflush; [by apply elem_of_nil in Hflush|done].
Qed.

Lemma sub_run_elem (c : N) (k : nat) (repl : list N) (m : nat) (t : list N) (x : N) :
  x ∈ sub_run c k repl m t → x ∈ repl ∨ x = c ∨ x ∈ t.
Proof.
  assert (∀ n, x ∈ flush c k repl n → x ∈ repl ∨ x = c) as Hflush.
  { intros n. unfold flush. destruct (k <=? n); [by left|].
    intros Hin. right. apply list_elem_of_In, repeat_spec in Hin. done. }
  revert m. induction t as [|y t IH]; intros m; simpl.
  - intros Hin. destruct (Hflush _ Hin); [by left|by right; left].
  - destruct (y =? c)%N eqn:Hy.
    + intros Hin. destruct (IH _ Hin) as [?|[?|?]]; [by left|by right; left|].
      right. right. by right.
    + rewrite elem_of_app, elem_of_cons. intros [Hin|[->|Hin]].
      * destruct (Hflush _ Hin); [by left|by right; left].
      * right. right. by left.
      * destruct (IH _ Hin) as [?|[?|?]]; [by left|by right; left|].
        right. right. by right.
Qed.

Lemma sub_run_keeps_short_runs (a c : N) (k' k j n m : nat) (t : list N) :
  a ≠ c → 0 < j → 0 < k →
  short_runs a k' n (repeat c m ++ t) →
  short_runs a k' n (sub_run c k (repeat c j) m t).
Proof.
  intros Hac Hj Hk. revert n m. induction t as [|x t IH]; intros n m; simpl.
  - destruct (flush_repeat c k j m Hj Hk) as (i & -> & _ & _ & Hzero).
    rewrite app_nil_r. destruct m as [|m].
    + by rewrite (proj2 Hzero eq_refl).
    + assert (0 < i) as Hi by lia.
      rewrite <- (app_nil_r (repeat c (S m))), <- (app_nil_r (repeat c i)).
      rewrite !short_runs_other by (done || lia). done.
  - destruct (x =? c)%N eqn:Hx.
    + apply N.eqb_eq in Hx as ->. rewrite repeat_shift. apply IH.
    + destruct (flush_repeat c k j m Hj Hk) as (i & -> & _ & _ & Hzero).
      assert (∀ n', short_runs a k' n' (x :: t) →
                    short_runs a k' n' (x :: sub_run c k (repeat c j) 0 t)) as Hstep.
      { intros n'. simpl. destruct (x =? a)%N.
        - apply (IH (S n') 0).
        - intros [? Hrun]. split; [done|]. by apply (IH 0 0). }
      destruct m as [|m].
      * rewrite (proj2 Hzero eq_refl). apply Hstep.
      * assert (0 < i) as Hi by lia.
        rewrite !short_runs_other by (done || lia).
        intros [? Hrun]. split; [done|]. by apply Hstep.
Qed.

Lemma sub_spaces_newline_elem (m : nat) (t : list N) (x : N) :
  x ∈ sub_spaces_newline m t → x = SP ∨ x ∈ t.
Proof.
  revert m. induction t as [|y t IH]; intros m; simpl.
  - intros Hin. left. apply list_elem_of_In, repeat_spec in Hin. done.
  - destruct (y =? SP)%N eqn:Hsp.
    + intros Hin. destruct (IH _ Hin); [by left|by right; right].
    + destruct (y =? NL)%N eqn:Hnl.
      * apply N.eqb_eq in Hnl as ->.
        rewrite elem_of_cons. intros [->|Hin]; [by right; left|].
        destruct (IH _ Hin); [by left|by right; right].
      * rewrite elem_of_app, elem_of_cons. intros [Hin|[->|Hin]].
        -- left. apply list_elem_of_In, repeat_spec in Hin. done.
        -- right. by left.
        -- destruct (IH _ Hin); [by left|by right; right].
Qed.

Lemma sub_spaces_newline_short_runs (k m : nat) (t : list N) :
  short_runs SP k m t → short_runs SP k 0 (sub_spaces_newline m t).
Proof.
  revert m. induction t as [|x t IH]; intros m; simpl.
  - intros Hm. rewrite <- (app_nil_r (repeat SP m)). apply short_runs_repeat. simpl. lia.
  - destruct (x =? SP)%N eqn:Hsp; [apply IH|].
    intros [Hm Hrun]. destruct (x =? NL)%N eqn:Hnl.
    + simpl. split; [lia|by apply IH].
    + apply short_runs_repeat. simpl. rewrite Hsp. split; [done|by apply IH].
Qed.

Lemma no_pair_weaken (a b : N) (prev : option N) (t : list N) :
  no_pair a b prev t → no_pair a b None t.
Proof. destruct t as [|x t]; simpl; [done|]. intros [_ ?]. split; [by intros [? _]|done]. Qed.

Lemma no_pair_app (a b : N) (prev : option N) (l t : list N) :
  no_pair a b prev (l ++ t) ↔
  no_pair a b prev l ∧ no_pair a b (match last l with Some y => Some y | None => prev end) t.
Proof.
  revert prev. induction l as [|x l IH]; intros prev; simpl; [tauto|].
  rewrite IH, last_cons. destruct (last l); tauto.
Qed.

Lemma no_pair_repeat (a b c : N) (prev : option N) (i : nat) :
  c ≠ b → no_pair a b prev (repeat c i).
Proof.
  intros Hcb. revert prev. induction i as [|i IH]; intros prev; simpl; [done|].
  split; [by intros [_ ?]|apply IH].
Qed.

Lemma last_repeat {A : Type} (x : A) (n : nat) : last (repeat x (S n)) = Some x.
Proof. induction n as [|n IH]; [done|]. change (repeat x (S (S n))) with (x :: repeat x (S n)).
  by rewrite last_cons, IH. Qed.

Lemma no_pair_runs (a b : N) (prev : option N) (i : nat) (t : list N) :
  a ≠ b → 0 < i →
  no_pair a b prev (repeat b i ++ t) ↔ prev ≠ Some a ∧ no_pair a b (Some b) t.
Proof.
  intros Hab Hi. destruct i as [|i]; [lia|].
  rewrite no_pair_app, last_repeat. simpl.
  assert (no_pair a b (Some b) (repeat b i)) as Hrep.
  { clear Hi. induction i as [|i IH]; simpl; [done|]. split; [|done]. intros [[= ->] _]. done. }
  split.
  - intros [[Hprev _] ?]. split; [|done]. intros ->. by apply Hprev.
  - intros [Hprev ?]. split; [|done]. split; [|done]. by intros [? _].
Qed.

Lemma sub_spaces_newline_no_pair (prev : option N) (m : nat) (t : list N) :
  prev ≠ Some SP → no_pair SP NL prev (sub_spaces_newline m t).
Proof.
  revert prev m. induction t as [|x t IH]; intros prev m Hprev; simpl.
  - by apply no_pair_repeat.
  - destruct (x =? SP)%N eqn:Hsp; [by apply IH|]. apply N.eqb_neq in Hsp.
    destruct (x =? NL)%N eqn:Hnl.
    + simpl. split; [by intros [? _]|]. by apply IH.
    + apply N.eqb_neq in Hnl. apply no_pair_app. split; [by apply no_pair_repeat|].
      simpl. split; [by intros [_ ?]|]. apply IH. by intros [= ->].
Qed.

Lemma sub_run_keeps_no_pair (a b : N) (k j : nat) (prev : option N) (m : nat) (t : list N) :
  a ≠ b → 0 < j → 0 < k →
  no_pair a b prev (repeat b m ++ t) →
  no_pair a b prev (sub_run b k (repeat b j) m t).
Proof.
  intros Hab Hj Hk. revert prev m. induction t as [|x t IH]; intros prev m; simpl.
  - destruct (flush_repeat b k j m Hj Hk) as (i & -> & _ & _ & Hzero).
    rewrite app_nil_r. destruct m as [|m].
    + by rewrite (proj2 Hzero eq_refl).
    + assert (0 < i) as Hi by lia.
      rewrite <- (app_nil_r (repeat b (S m))), <- (app_nil_r (repeat b i)).
      rewrite !no_pair_runs by (done || lia). done.
  - destruct (x =? b)%N eqn:Hx.
    + apply N.eqb_eq in Hx as ->. rewrite repeat_shift. apply IH.
    + destruct (flush_repeat b k j m Hj Hk) as (i & -> & _ & _ & Hzero).
      assert (∀ p, no_pair a b p (x :: t) →
                   no_pair a b p (x :: sub_run b k (repeat b j) 0 t)) as Hstep.
      { intros p. simpl. intros [? Hrest]. split; [done|]. by apply (IH (Some x) 0). }
      destruct m as [|m].
      * rewrite (proj2 Hzero eq_refl). apply Hstep.
      * assert (0 < i) as Hi by lia.
        rewrite !no_pair_runs by (done || lia).
        intros [? Hrest]. split; [done|]. by apply Hstep.
Qed.

(** [strip] keeps a block of the text, whose ends are not spaces. *)
Lemma lstrip_suffix (t : list N) : ∃ l, t = l ++ lstrip t.
Proof.
  induction t as [|x t [l IH]]; simpl; [by exists []|].
  destruct (is_space x); [|by exists []].
  exists (x :: l). simpl. by rewrite <- IH.
Qed.

Lemma lstrip_head (t : list N) (c : N) : head (lstrip t) = Some c → is_space c = false.
Proof.
  induction t as [|x t IH]; simpl; [done|].
  destruct (is_space x) eqn:Hx; [done|]. simpl. by intros [= <-].
Qed.

Lemma lstrip_fixed (t : list N) :
  (∀ c, head t = Some c → is_space c = false) → lstrip t = t.
Proof. destruct t as [|x t]; simpl; [done|]. intros Hhead. by rewrite (Hhead x eq_refl). Qed.

Lemma strip_block (t : list N) : ∃ before after, t = before ++ strip t ++ after.
Proof.
  unfold strip. destruct (lstrip_suffix t) as [l Hl].
  destruct (lstrip_suffix (reverse (lstrip t))) as [l' Hl'].
  exists l, (reverse l'). rewrite <- reverse_app, <- Hl', reverse_involutive. done.
Qed.

Lemma strip_ends (t : list N) (c : N) :
  head (strip t) = Some c ∨ last (strip t) = Some c → is_space c = false.
Proof.
  unfold strip. rewrite head_reverse, last_reverse. intros [Hlast|Hhead].
  - destruct (lstrip_suffix (reverse (lstrip t))) as [l Hl].
    apply (lstrip_head t). rewrite <- last_reverse, Hl, last_app, Hlast. done.
  - by apply lstrip_head in Hhead.
Qed.

Lemma strip_fixed (t : list N) :
  (∀ c, head t = Some c → is_space c = false) →
  (∀ c, last t = Some c → is_space c = false) →
  strip t = t.
Proof.
  intros Hhead Hlast. unfold strip. rewrite (lstrip_fixed t Hhead).
  rewrite lstrip_fixed; [apply reverse_involutive|].
  intros c. rewrite head_reverse. apply Hlast.
Qed.

(** Texts that [re.sub] leaves as they are. *)
Lemma sub_run_fixed (c : N) (k : nat) (repl : list N) (m : nat) (t : list N) :
  short_runs c k m t → sub_run c k repl m t = repeat c m ++ t.
Proof.
  revert m. induction t as [|x t IH]; intros m; simpl.
  - intros Hm. unfold flush. apply Nat.leb_gt in Hm. by rewrite Hm, app_nil_r.
  - destruct (x =? c)%N eqn:Hx.
    + apply N.eqb_eq in Hx as ->. intros Hrun. rewrite (IH _ Hrun). by rewrite repeat_shift.
    + intros [Hm Hrun]. unfold flush. apply Nat.leb_gt in Hm. rewrite Hm.
      by rewrite (IH 0 Hrun).
Qed.

Lemma sub_spaces_newline_fixed (prev : option N) (m : nat) (t : list N) :
  no_pair SP NL prev (repeat SP m ++ t) → sub_spaces_newline m t = repeat SP m ++ t.
Proof.
  revert prev m. induction t as [|x t IH]; intros prev m; simpl; [by rewrite app_nil_r|].
  destruct (x =? SP)%N eqn:Hsp.
  - apply N.eqb_eq in Hsp as ->. rewrite repeat_shift. apply IH.
  - rewrite no_pair_app. simpl. intros (_ & Hx & Hrest).
    rewrite (IH (Some x) 0 Hrest). simpl.
    destruct (x =? NL)%N eqn:Hnl; [|done].
    apply N.eqb_eq in Hnl as ->. destruct m as [|m]; [done|].
    rewrite last_repeat in Hx. by destruct Hx.
Qed.

Lemma short_runs_occurs (c : N) (k : nat) (t : list N) :
  short_runs c k 0 t → ¬ occurs (repeat c k) t.
Proof.
  intros Hrun (before & after & ->).
  apply short_runs_suffix, short_runs_repeat, short_runs_bound in Hrun. lia.
Qed.

Lemma no_pair_occurs (a b : N) (t : list N) :
  no_pair a b None t → ¬ occurs [a; b] t.
Proof.
  intros Hno (before & after & ->).
  apply no_pair_app in Hno as [_ Hno]. simpl in Hno.
  destruct Hno as (_ & Hab & _). by apply Hab.
Qed.

(** The shape of a tidied text. *)
Lemma tidy_shape (t : list N) :
  (NBSP ∉ tidy t) ∧
  short_runs SP 2 0 (tidy t) ∧
  no_pair SP NL None (tidy t) ∧
  short_runs NL 3 0 (tidy t) ∧
  (∀ c, head (tidy t) = Some c → is_space c = false) ∧
  (∀ c, last (tidy t) = Some c → is_space c = false).
Proof.
  unfold tidy.
  set (t1 := sub_run NBSP 1 [SP] 0 t).
  set (t2 := sub_run SP 2 [SP] 0 t1).
  set (t3 := sub_spaces_newline 0 t2).
  set (t4 := sub_run NL 3 [NL; NL] 0 t3).
  assert (NBSP ∉ t4) as Hnbsp.
  { intros H4. apply (sub_run_elem NL 3 [NL; NL] 0 t3) in H4 as [H4|[H4|H4]];
      [by repeat (apply elem_of_cons in H4 as [H4|H4]; [done|]); apply elem_of_nil in H4|done|].
    apply sub_spaces_newline_elem in H4 as [H4|H4]; [done|].
    apply (sub_run_elem SP 2 [SP] 0 t1) in H4 as [H4|[H4|H4]];
      [by repeat (apply elem_of_cons in H4 as [H4|H4]; [done|]); apply elem_of_nil in H4|done|].
    revert H4. apply sub_run_removes. by intros [?|?%elem_of_nil]%elem_of_cons. }
  assert (short_runs SP 2 0 t4) as Hspaces.
  { apply (sub_run_keeps_short_runs SP NL 2 3 2 0 0 t3); [done|lia|lia|].
    apply sub_spaces_newline_short_runs.
    apply (sub_run_short_runs SP 2 1 0 t1); lia. }
  assert (no_pair SP NL None t4) as Hpair.
  { apply (sub_run_keeps_no_pair SP NL 3 2 None 0 t3); [done|lia|lia|].
    by apply sub_spaces_newline_no_pair. }
  assert (short_runs NL 3 0 t4) as Hlines.
  { apply (sub_run_short_runs NL 3 2 0 t3); lia. }
  destruct (strip_block t4) as (before & after & Hblock).
  split; [|split; [|split; [|split; [|split]]]].
  - intros Hin. apply Hnbsp. rewrite Hblock, !elem_of_app. right. by left.
  - rewrite Hblock in Hspaces. by apply short_runs_suffix, short_runs_prefix in Hspaces.
  - rewrite Hblock in Hpair. apply no_pair_app in Hpair as [_ Hpair].
    apply no_pair_app in Hpair as [Hpair _]. by apply no_pair_weaken in Hpair.
  - rewrite Hblock in Hlines. by apply short_runs_suffix, short_runs_prefix in Hlines.
  - intros c Hc. apply (strip_ends t4). by left.
  - intros c Hc. apply (strip_ends t4). by right.
Qed.

(** What [cleanup] returns holds no no-break space, no two spaces in a
    row, no space right before a newline and no three newlines in a row,
    and neither starts nor ends with a space character. *)
Theorem cleanup_text_is_tidy (get_text : list N → list N) (text : list N) :
  (NBSP ∉ cleanup_text get_text text) ∧
  ¬ occurs [SP; SP] (cleanup_text get_text text) ∧
  ¬ occurs [SP; NL] (cleanup_text get_text text) ∧
  ¬ occurs [NL; NL; NL] (cleanup_text get_text text) ∧
  (∀ c, head (cleanup_text get_text text) = Some c → is_space c = false) ∧
  (∀ c, last (cleanup_text get_text text) = Some c → is_space c = false).
Proof.
  unfold cleanup_text.
  destruct (tidy_shape (get_text text)) as (Hnbsp & Hspaces & Hpair & Hlines & Hhead & Hlast).
  split; [done|]. split; [by apply (short_runs_occurs SP 2)|].
  split; [by apply no_pair_occurs|]. split; [by apply (short_runs_occurs NL 3)|].
  by split.
Qed.

(** The [re.sub] calls and the [strip] of [cleanup] change nothing in a
    text they have produced: cleaning a text that [get_text] leaves as it
    is twice gives what cleaning it once gives. *)
Theorem tidy_idempotent (t : list N) :
  tidy (tidy t) = tidy t.
Proof.
  destruct (tidy_shape t) as (Hnbsp & Hspaces & Hpair & Hlines & Hhead & Hlast).
  set (r := tidy t) in *. unfold tidy at 1.
  rewrite (sub_run_fixed NBSP 1 [SP] 0 r) by by apply notin_short_runs.
  simpl. rewrite (sub_run_fixed SP 2 [SP] 0 r) by done.
  simpl. rewrite (sub_spaces_newline_fixed None 0 r) by done.
  simpl. rewrite (sub_run_fixed NL 3 [NL; NL] 0 r) by done.
  simpl. by apply strip_fixed.
Qed.

Lemma tidy_example :
  tidy [97; 160; 160; 32; 98; 32; 32; 10; 10; 10; 10; 32; 99; 32]%N
  = [97; 32; 98; 10; 10; 32; 99]%N.
Proof. reflexivity. Qed.

(** ** A date that does not parse *)

Lemma filter_r_stops {A : Type} (p : A → result bool) (before after : list A) (x : A) (ex : exn) :
  p x = Raise ex →
  (∃ ex', filter_r p (before ++ x :: after) = Raise ex') ∧
  (Forall (λ y, ∃ b, p y = Ok b) before → filter_r p (before ++ x :: after) = Raise ex).
Proof.
  intros Hx. induction before as [|y before [[ex' IH] IHok]]; simpl.
  - rewrite Hx. split; [by eexists|done].
  - destruct (p y) as [b|e] eqn:Hy; simpl.
    + rewrite IH. simpl. split; [by eexists|].
      intros Hall. apply Forall_cons in Hall as [_ Hall].
      specialize (IHok Hall). rewrite IH in IHok. by injection IHok as ->.
    + split; [by eexists|]. intros Hall. apply Forall_cons in Hall as [[b Hb] _].
      congruence.
Qed.

(** The date of one entry read first: in the sample world a feed whose
    first entry carries a date without timezone raises [TypeError], although
    a later entry has a date that does not parse. *)
Lemma naive_entry_raises_first :
  raw_undated ∈ [raw_naive; raw_undated] ∧
  raw_updated raw_undated ≫= dateutil_parse sample_world = None ∧
  get_feed sample_world "https://example.org/naive" (Some 0%N) = Raise TypeError.
Proof. split; [apply list_elem_of_further, list_elem_of_here|]. by split. Qed.

(** One entry of the feed whose [updated] does not parse makes [get_feed]
    raise before it yields anything, wherever the entry stands, whatever
    its date was meant to be and whatever the watermark: the first filter
    reads the date of every entry.  The exception is the parser's when the
    dates of the entries before it can be read and compared with the
    clock; otherwise it is the one the first such entry raises. *)
Theorem undated_entry_fails_feed (w : World) (feed_url : string) (last_update : option datetime)
    (before after : list raw_entry) (raw : raw_entry) (text : string)
    (Hfeed : feedparser_parse w feed_url = Ok (before ++ raw :: after))
    (Htext : raw_updated raw = Some text)
    (Hdate : dateutil_parse w text = None) :
  (∃ ex, select_entries w feed_url last_update = Raise ex ∧
         get_feed w feed_url last_update = Raise ex) ∧
  ((∀ e, e ∈ before → dated w e) →
   select_entries w feed_url last_update = Raise ParserError ∧
   get_feed w feed_url last_update = Raise ParserError).
Proof.
  assert (∀ ex, select_entries w feed_url last_update = Raise ex →
                get_feed w feed_url last_update = Raise ex) as Hget.
  { intros ex Hex. unfold get_feed. by rewrite Hex. }
  destruct (filter_r_stops
              (λ e, d ← parsed_updated w e; Ok (d <=? utcnow w feed_url)%N)
              before after raw ParserError) as [[ex Hex] Hparser].
  { unfold parsed_updated. rewrite Htext. simpl. by rewrite Hdate. }
  split.
  - exists ex.
    assert (select_entries w feed_url last_update = Raise ex) as Hsel.
    { unfold select_entries. rewrite Hfeed. simpl. by rewrite Hex. }
    split; [exact Hsel|by apply Hget].
  - intros Hdated.
    assert (select_entries w feed_url last_update = Raise ParserError) as Hsel.
    { unfold select_entries. rewrite Hfeed. simpl. rewrite Hparser; [done|].
      apply Forall_forall. intros e He. eexists.
      by rewrite (parsed_updated_timestamp w e (Hdated e He)). }
    split; [exact Hsel|by apply Hget].
Qed.

Lemma undated_entry_fails_feed_witness :
  get_feed sample_world "https://example.org/broken" (Some 0%N) = Raise ParserError.
Proof.
  destruct (undated_entry_fails_feed sample_world "https://example.org/broken" (Some 0%N)
              [] [] raw_undated "yesterday" eq_refl eq_refl eq_refl) as [_ Hparser].
  apply Hparser. intros e He. by apply elem_of_nil in He.
Defined.

(** ** The ledger through a turn of the feed loop *)

Lemma update_dupes_NoDup (dupes : list string) (new : string) :
  NoDup dupes → new ∉ dupes → NoDup (update_dupes dupes new).
Proof.
  intros Hnodup Hnew. unfold update_dupes.
  assert (NoDup (drop 1 dupes) ∧ new ∉ drop 1 dupes) as [Hdrop Hnew'].
  { split; [by eapply sublist_NoDup, sublist_drop|].
    intros Hin. apply Hnew. by eapply elem_of_sublist, sublist_drop. }
  destruct (50 <? length dupes); apply NoDup_app; (split; [done|]);
    (split; [|apply NoDup_singleton]); intros x Hx Hx';
    apply list_elem_of_singleton in Hx' as ->; done.
Qed.

Lemma update_dupes_elem (dupes : list string) (new v : string) :
  v ∈ update_dupes dupes new → v ∈ dupes ∨ v = new.
Proof.
  unfold update_dupes. rewrite elem_of_app, list_elem_of_singleton. intros [Hin| ->]; [|by right].
  left. destruct (50 <? length dupes); [|done]. by eapply elem_of_sublist, sublist_drop.
Qed.

Lemma process_entry_ledger (w : World) (a : args) (f : feed) (e : entry) (s : loop)
    (l : list string) :
  dupes s = LList l → NoDup l →
  ∃ l', dupes (process_entry w a f e s).1 = LList l' ∧ NoDup l' ∧
        length l' ≤ length l `max` 51 ∧
        ∀ v, v ∈ l' → v ∈ l ∨ ∃ field, dedupe a = Some field ∧ v = entry_field e field.
Proof.
  intros Hl Hnodup.
  assert (∃ l', LList l = LList l' ∧ NoDup l' ∧ length l' ≤ length l `max` 51 ∧
                ∀ v, v ∈ l' → v ∈ l ∨ ∃ field, dedupe a = Some field ∧ v = entry_field e field)
    as Hsame.
  { exists l. split; [done|]. split; [done|]. split; [lia|]. intros v Hv. by left. }
  unfold process_entry.
  destruct (entry_text w (f_template f) e) as [text|ex]; [|by simpl; rewrite Hl].
  destruct (dry_run a); [by simpl; rewrite Hl|].
  destruct (dedupe a) as [field|].
  - assert (dupes (if verbose a
                   then emit (Print text)
                          {| newest_post := N.max (newest_post s) (e_updated e);
                             dupes := dupes s; out := out s; draws := draws s |}
                   else {| newest_post := N.max (newest_post s) (e_updated e);
                           dupes := dupes s; out := out s; draws := draws s |}) = LList l)
      as Hdupes by by destruct (verbose a).
    rewrite Hdupes. simpl.
    destruct (bool_decide (entry_field e field ∈ l)) eqn:Hseen.
    + destruct (verbose a); simpl; by rewrite Hl.
    + apply bool_decide_eq_false in Hseen.
      rewrite (proj2 (publish_frame _ _ _ _ _ _)). simpl.
      exists (update_dupes l (entry_field e field)). split; [done|].
      split; [by apply update_dupes_NoDup|]. split.
      * rewrite update_dupes_length. destruct (50 <? length l) eqn:Hlen; [lia|].
        apply Nat.ltb_ge in Hlen. lia.
      * intros v Hv. apply update_dupes_elem in Hv as [Hv| ->]; [by left|].
        right. by exists field.
  - rewrite (proj2 (publish_frame _ _ _ _ _ _)). destruct (verbose a); simpl; by rewrite Hl.
Qed.

(** A ledger that is a list without repetition stays one through the
    entries of a feed, whatever happens to them: a value is appended only
    when it is not there.  It never grows beyond 51 values (or its length
    at the start, if longer), and the values it gains are values of the
    dedupe field of these entries. *)
Theorem ledger_holds_no_value_twice (w : World) (a : args) (f : feed) (entries : list entry)
    (s : loop) (l : list string)
    (Hlist : dupes s = LList l)
    (Hnodup : NoDup l) :
  ∃ l', dupes (run_entries w a f entries s).1 = LList l' ∧ NoDup l' ∧
        length l' ≤ length l `max` 51 ∧
        ∀ v, v ∈ l' →
             v ∈ l ∨ ∃ e field, e ∈ entries ∧ dedupe a = Some field ∧ v = entry_field e field.
Proof.
  revert s l Hlist Hnodup. induction entries as [|e rest IH]; intros s l Hlist Hnodup; simpl.
  - exists l. split; [done|]. split; [done|]. split; [lia|]. intros v Hv. by left.
  - destruct (process_entry_ledger w a f e s l Hlist Hnodup) as (l1 & Hl1 & Hnd1 & Hlen1 & Hval1).
    destruct (process_entry w a f e s) as [s1 [ex|]]; simpl in Hl1.
    + simpl. exists l1. split; [done|]. split; [done|]. split; [done|].
      intros v Hv. destruct (Hval1 v Hv) as [?|(field & ? & ?)]; [by left|].
      right. exists e, field. split; [apply list_elem_of_here|done].
    + destruct (IH s1 l1 Hl1 Hnd1) as (l2 & Hl2 & Hnd2 & Hlen2 & Hval2).
      exists l2. split; [done|]. split; [done|]. split; [lia|].
      intros v Hv. destruct (Hval2 v Hv) as [Hv1|(e' & field & ? & ? & ?)].
      * destruct (Hval1 v Hv1) as [?|(field & ? & ?)]; [by left|].
        right. exists e, field. split; [apply list_elem_of_here|done].
      * right. exists e', field. split; [by apply list_elem_of_further|done].
Qed.

Lemma ledger_holds_no_value_twice_witness :
  let s := {| newest_post := 0%N; dupes := LList []; out := []; draws := 0 |} in
  ∃ l', dupes (run_entries sample_world dedupe_link_args sample_feed
                 [entry_second; entry_second] s).1 = LList l' ∧ NoDup l'.
Proof.
  intros s.
  destruct (ledger_holds_no_value_twice sample_world dedupe_link_args sample_feed
              [entry_second; entry_second] s [] eq_refl (NoDup_nil_2))
    as (l' & Hl' & Hnodup & _).
  by exists l'.
Defined.

(** ** Running again *)

Lemma foldl_max_ge (init : N) (l : list N) :
  (init ≤ foldl N.max init l)%N ∧ ∀ x, x ∈ l → (x ≤ foldl N.max init l)%N.
Proof.
  revert init. induction l as [|y l IH]; intros init; simpl.
  - split; [lia|]. intros x Hx. by apply elem_of_nil in Hx.
  - destruct (IH (N.max init y)) as [Hinit Hall]. split; [lia|].
    intros x Hx. apply elem_of_cons in Hx as [->|Hx]; [lia|by apply Hall].
Qed.

Lemma filter_r_ok_inv {A : Type} (p : A → result bool) (l kept : list A) (x : A) :
  filter_r p l = Ok kept → x ∈ l → ∃ b, p x = Ok b.
Proof.
  revert kept. induction l as [|y l IH]; intros kept Hok Hin; [by apply elem_of_nil in Hin|].
  simpl in Hok. destruct (p y) as [b|] eqn:Hy; [|done]. simpl in Hok.
  destruct (filter_r p l) as [rest|]; [|done].
  apply elem_of_cons in Hin as [->|Hin]; [by exists b|by apply (IH rest)].
Qed.

Lemma filter_none {A : Type} (q : A → bool) (l : list A) :
  (∀ x, x ∈ l → q x = false) → List.filter q l = [].
Proof.
  induction l as [|x l IH]; intros Hq; simpl; [done|].
  rewrite (Hq x) by apply list_elem_of_here.
  apply IH. intros y Hy. apply Hq. by apply list_elem_of_further.
Qed.

Lemma map_r_ok_inv {A B : Type} (f : A → result B) (l : list A) (ys : list B) (x : A) :
  map_r f l = Ok ys → x ∈ l → ∃ y, f x = Ok y ∧ y ∈ ys.
Proof.
  revert ys. induction l as [|x' l IH]; intros ys Hmap Hx; [by apply elem_of_nil in Hx|].
  simpl in Hmap. destruct (f x') as [y'|] eqn:Hx'; [|done]. simpl in Hmap.
  destruct (map_r f l) as [ys'|]; [|done]. simpl in Hmap. injection Hmap as <-.
  apply elem_of_cons in Hx as [->|Hx].
  - exists y'. split; [done|apply list_elem_of_here].
  - destruct (IH ys' eq_refl Hx) as (y & Hy & Hin). exists y. split; [done|].
    by apply list_elem_of_further.
Qed.

(** Once the watermark has passed the entries [get_feed] yielded, the same
    feed read at the same clock yields nothing. *)
Lemma get_feed_caught_up (w : World) (feed_url : string) (last : datetime) (entries : list entry) :
  get_feed w feed_url (Some last) = Ok entries →
  get_feed w feed_url (Some (foldl N.max last (e_updated <$> entries))) = Ok [].
Proof.
  intros Hfeed.
  destruct (foldl_max_ge last (e_updated <$> entries)) as [Hlast Hentries].
  set (last' := foldl N.max last (e_updated <$> entries)) in *.
  destruct (feedparser_parse w feed_url) as [raws|ex] eqn:Hfetch;
    [|by unfold get_feed, select_entries in Hfeed; rewrite Hfetch in Hfeed].
  assert (∀ e, e ∈ raws → dated w e) as Hdates.
  { intros e He. revert Hfeed. unfold get_feed, select_entries. rewrite Hfetch. simpl.
    destruct (filter_r _ raws) as [fresh|] eqn:Hfresh; [|done]. intros _.
    destruct (filter_r_ok_inv _ _ _ e Hfresh He) as [b Hb].
    destruct (parsed_updated w e) as [d|] eqn:Hd; [|done].
    by apply (parsed_updated_dated w e d). }
  pose proof (select_entries_dated w feed_url (Some last) raws Hfetch Hdates) as Hsel.
  pose proof (select_entries_dated w feed_url (Some last') raws Hfetch Hdates) as Hsel'.
  set (now := utcnow w feed_url) in *.
  set (fresh := List.filter (λ e, (timestamp w e <=? now)%N) raws) in *.
  unfold get_feed in Hfeed. rewrite Hsel in Hfeed.
  destruct (sort_entries (List.filter (λ e, (last <? timestamp w e)%N) fresh))
    as [kept|] eqn:Hkept; [|done].
  apply sort_entries_ok in Hkept. simpl in Hfeed.
  unfold get_feed. rewrite Hsel'.
  rewrite filter_none; [done|].
  intros e He. apply N.ltb_ge.
  destruct (last <? timestamp w e)%N eqn:Hnewer.
  - assert (e ∈ kept) as Hin.
    { rewrite Hkept, (sort_by_key_perm _). apply elem_of_List_filter. by split. }
    destruct (map_r_ok_inv _ _ _ e Hfeed Hin) as (y & Hy & Hyin).
    destruct (get_entry_inv w e y Hy) as (_ & _ & <- & _).
    apply Hentries. apply list_elem_of_fmap. by exists y.
  - apply N.ltb_ge in Hnewer. lia.
Qed.

Lemma run_entries_ledger_untouched (w : World) (a : args) (f : feed) (entries : list entry)
    (s : loop) :
  dedupe a = None → dupes (run_entries w a f entries s).1 = dupes s.
Proof.
  intros Hdedupe. revert s. induction entries as [|e rest IH]; intros s; simpl; [done|].
  assert (dupes (process_entry w a f e s).1 = dupes s) as He.
  { unfold process_entry. rewrite Hdedupe.
    destruct (entry_text w (f_template f) e) as [text|ex]; [|done].
    destruct (dry_run a); [done|].
    rewrite (proj2 (publish_frame _ _ _ _ _ _)). by destruct (verbose a). }
  destruct (process_entry w a f e s) as [s' [ex|]]; simpl in *; [done|].
  by rewrite IH.
Qed.

(** A run of [main] over one feed that is not dry, does not dedupe and
    reaches its end can be run again: on the state file it has written,
    with the same feed read at the same clock, the second run reaches its
    end too, does nothing but print and save, and leaves every watermark
    where the first run put it.  Here the feed's ledger is empty at the
    start, and the timestamp codec reads back what it writes. *)
Theorem rerun_posts_nothing (w : World) (a : args) (f : feed) (file0 : option state_doc)
    (st0 : state) (dm : gmap string ledger)
    (Hcodec : ∀ d, dateutil_parse w (isoformat w d) = Some d)
    (Hdry : dry_run a = false)
    (Hdedupe : dedupe a = None)
    (Hread : read_state w file0 = Ok st0)
    (Hmap : st_dupecheck st0 = DMap dm)
    (Hledger : ledger_of dm (f_url f) = LList [])
    (Hdone : (main w a [f] file0).2 = None) :
  (main w a [f] (file (main w a [f] file0).1)).2 = None ∧
  posted (log (main w a [f] (file (main w a [f] file0).1)).1) = [] ∧
  Forall (λ ev, is_console ev = true ∨ ∃ doc, ev = SaveState doc)
    (log (main w a [f] (file (main w a [f] file0).1)).1) ∧
  ∀ url, watermark (st_updated (mem (main w a [f] (file (main w a [f] file0).1)).1)) url
         = watermark (st_updated (mem (main w a [f] file0).1)) url.
Proof.
  set (newest := watermark (st_updated st0) (f_url f)).
  assert (∃ newest',
            file (main w a [f] file0).1
            = Some (save_state w
                      {| st_updated := <[f_url f := newest']>
                                         (<[f_url f := newest]> (st_updated st0));
                         st_dupecheck := DLedger (LList []) |}) ∧
            st_updated (mem (main w a [f] file0).1)
            = <[f_url f := newest']> (<[f_url f := newest]> (st_updated st0)) ∧
            get_feed w (f_url f) (Some newest') = Ok []) as (newest' & Hfile & Hmem & Hcaught).
  { revert Hdone. unfold main. rewrite Hread. simpl. unfold run_feed. simpl.
    rewrite Hmap, Hdry, Hledger. fold newest.
    pose proof (get_feed_yielded w (f_url f) (Some newest)) as Hfeed.
    destruct (select_entries w (f_url f) (Some newest)) as [raws|ex]; [|done].
    rewrite run_yielded_eq.
    match goal with |- context [run_entries w a f ?entries ?s0] =>
      pose proof (run_entries_newest w a f entries s0) as [_ Hnewest];
      pose proof (run_entries_ledger_untouched w a f entries s0 Hdedupe) as Hdupes;
      destruct (run_entries w a f entries s0) as [s r]
    end.
    destruct r as [ex|]; [done|].
    destruct (yielded w raws).2 as [ex|]; [done|]. intros _. simpl in *.
    specialize (Hnewest eq_refl). rewrite Hdupes, Hnewest.
    exists (foldl N.max newest (e_updated <$> (yielded w raws).1)).
    split; [done|]. split; [done|]. by apply get_feed_caught_up. }
  rewrite Hfile, Hmem.
  set (updated' := <[f_url f := newest']> (<[f_url f := newest]> (st_updated st0))).
  assert (read_state w (Some (save_state w {| st_updated := updated';
                                              st_dupecheck := DLedger (LList []) |}))
          = Ok {| st_updated := updated'; st_dupecheck := DMap ∅ |}) as Hread'.
  { unfold read_state, load_updated, load_dupecheck, save_state. simpl.
    by rewrite (parse_timestamps_isoformat w updated' Hcodec). }
  unfold main. rewrite Hread'. simpl. unfold run_feed. simpl. rewrite Hdry.
  assert (watermark updated' (f_url f) = newest') as Hwm.
  { unfold updated'. by rewrite watermark_insert, decide_True. }
  rewrite Hwm.
  pose proof (get_feed_yielded w (f_url f) (Some newest')) as Hnone.
  rewrite Hcaught in Hnone.
  destruct (select_entries w (f_url f) (Some newest')) as [raws|ex]; [|done].
  rewrite run_yielded_eq.
  destruct (yielded w raws) as [entries [ex|]]; [done|].
  simpl in Hnone. injection Hnone as <-. simpl.
  split; [done|]. split; [by destruct (verbose a)|]. split.
  - destruct (verbose a); simpl; repeat constructor; by eauto.
  - intros url. rewrite !watermark_insert.
    destruct (decide (f_url f = url)); [|done].
    subst url. by rewrite Hwm.
Qed.

Lemma rerun_posts_nothing_witness :
  posted (log (main sample_world plain_args [sample_feed]
                 (file (main sample_world plain_args [sample_feed] None).1)).1) = [].
Proof.
  exact (proj1 (proj2
    (rerun_posts_nothing sample_world plain_args sample_feed None
       {| st_updated := ∅; st_dupecheck := DMap ∅ |} ∅
       sample_codec eq_refl eq_refl eq_refl eq_refl eq_refl eq_refl))).
Defined.

(** ** The trace of the entries of a feed holds no save *)





(** ** What an exception leaves behind *)




(** A state file one of whose watermarks does not parse stops [main]
    before it looks at a feed: [read_state] raises the parser's exception,
    which nothing catches.  Nothing is fetched, posted or saved. *)
Theorem corrupt_watermark_blocks_run (w : World) (a : args) (feeds : list feed)
    (doc : state_doc) (stamps : gmap string string) (url text : string)
    (Hstamps : doc_updated doc = Some stamps)
    (Hurl : stamps !! url = Some text)
    (Hbad : dateutil_parse w text = None) :
  read_state w (Some doc) = Raise ParserError ∧
  (main w a feeds (Some doc)).2 = Some ParserError ∧
  log (main w a feeds (Some doc)).1 = [] ∧
  file (main w a feeds (Some doc)).1 = Some doc.
Proof.
  assert (read_state w (Some doc) = Raise ParserError) as Hread.
  { unfold read_state, load_updated, parse_timestamps. rewrite Hstamps.
    rewrite bool_decide_eq_false_2; [done|].
    intros Hall. destruct (Hall url text Hurl) as [d Hd]. congruence. }
  split; [exact Hread|]. unfold main. by rewrite Hread.
Qed.

Lemma corrupt_watermark_blocks_run_witness :
  (main sample_world plain_args [sample_feed]
     (Some {| doc_updated := Some {[ "https://example.org/feed" := "yesterday" ]};
              doc_dupecheck := None |})).2 = Some ParserError.
Proof.
  refine (proj1 (proj2
    (corrupt_watermark_blocks_run sample_world plain_args [sample_feed]
       {| doc_updated := Some {[ "https://example.org/feed" := "yesterday" ]};
          doc_dupecheck := None |}
       {[ "https://example.org/feed" := "yesterday" ]}
       "https://example.org/feed" "yesterday" eq_refl _ eq_refl))).
  apply lookup_singleton_eq.
Defined.

(** ** Dry runs, watermarks across runs and failures of a feed *)

Lemma read_state_map (w : World) (file0 : option state_doc) (st : state) :
  read_state w file0 = Ok st → ∃ dm, st_dupecheck st = DMap dm.
Proof.
  unfold read_state. destruct file0 as [doc|]; [|intros [= <-]; by eexists].
  destruct (load_updated w doc); simpl; [|done].
  destruct (load_dupecheck doc); simpl; [|done].
  intros [= <-]. by eexists.
Qed.

Lemma posted_console (l : list event) :
  Forall (λ ev, is_console ev = true) l → posted l = [].
Proof.
  induction 1 as [|ev l Hev _ IH]; [done|].
  destruct ev; simpl in *; done.
Qed.

(** C7: in a dry run the body of the loop, for an entry whose template
    renders, prints the text and does nothing else: no image is fetched or
    uploaded, nothing is posted, the ledger is not read or written and no
    delay is drawn.  Over a whole run the state file is never written
    (its content is the one the run found and the trace holds no save),
    nothing is posted, every event of the trace is a line on the console,
    the watermark and the ledger of every feed read, in memory, as they
    were loaded, and the state file reads back as the state the run
    loaded; when the run reaches its end, the text of every entry of every
    configured feed has been printed. *)
Theorem dry_run_prints_without_publishing (w : World) (a : args) (feeds : list feed)
    (file0 : option state_doc) (Hdry : dry_run a = true) :
  (∀ f e s text, entry_text w (f_template f) e = Ok text →
     process_entry w a f e s
     = ({| newest_post := N.max (newest_post s) (e_updated e); dupes := dupes s;
           out := out s ++ [Print text]; draws := draws s |}, None)) ∧
  file (main w a feeds file0).1 = file0 ∧
  posted (log (main w a feeds file0).1) = [] ∧
  (∀ ev, ev ∈ log (main w a feeds file0).1 →
     is_console ev = true ∧
     (∀ text medias ok, ev ≠ StatusPost text medias ok) ∧
     (∀ doc, ev ≠ SaveState doc)) ∧
  (∀ st0, read_state w file0 = Ok st0 →
     read_state w (file (main w a feeds file0).1) = Ok st0 ∧
     (∀ url, watermark (st_updated (mem (main w a feeds file0).1)) url
             = watermark (st_updated st0) url) ∧
     ∃ dm0 dm, st_dupecheck st0 = DMap dm0 ∧
               st_dupecheck (mem (main w a feeds file0).1) = DMap dm ∧
               ∀ url, ledger_of dm url = ledger_of dm0 url) ∧
  ((main w a feeds file0).2 = None →
   ∀ st0 f entries e text,
     read_state w file0 = Ok st0 → f ∈ feeds →
     get_feed w (f_url f) (Some (watermark (st_updated st0) (f_url f))) = Ok entries →
     e ∈ entries → entry_text w (f_template f) e = Ok text →
     Print text ∈ log (main w a feeds file0).1).
Proof.
  split.
  { intros f e s text Htext. unfold process_entry. by rewrite Htext, Hdry. }
  assert (file (main w a feeds file0).1 = file0 ∧
          Forall (λ ev, is_console ev = true) (log (main w a feeds file0).1) ∧
          (∀ st0, read_state w file0 = Ok st0 →
             (∀ url, watermark (st_updated (mem (main w a feeds file0).1)) url
                     = watermark (st_updated st0) url) ∧
             ∃ dm0 dm, st_dupecheck st0 = DMap dm0 ∧
                       st_dupecheck (mem (main w a feeds file0).1) = DMap dm ∧
                       ∀ url, ledger_of dm url = ledger_of dm0 url) ∧
          ((main w a feeds file0).2 = None →
           ∀ st0 f entries e text,
             read_state w file0 = Ok st0 → f ∈ feeds →
             get_feed w (f_url f) (Some (watermark (st_updated st0) (f_url f))) = Ok entries →
             e ∈ entries → entry_text w (f_template f) e = Ok text →
             Print text ∈ log (main w a feeds file0).1))
    as (Hfile & Hconsole & Hstate & Hprinted).
  { unfold main. destruct (read_state w file0) as [st|ex] eqn:Hread; simpl.
    2:{ split; [done|]. split; [constructor|]. split; [intros st0 [=]|intros [=]]. }
    destruct (read_state_map w file0 st Hread) as [dm0 Hdm0].
    destruct (dry_run_feeds w a feeds
                {| mem := st; file := file0; log := []; ndraws := 0 |}
                (st_updated st) dm0 dm0 Hdry Hdm0)
      as (Hfile & Hconsole & Hwm & (dm & Hdm & Hled) & _ & Hprinted); try done.
    split; [exact Hfile|]. split; [exact Hconsole|]. split.
    - intros st0 [= <-]. split; [exact Hwm|]. by exists dm0, dm.
    - intros Hnone st0 f entries e text [= <-]. by apply Hprinted. }
  split; [exact Hfile|]. split; [by apply posted_console|]. split.
  { intros ev Hev. rewrite Forall_forall in Hconsole. specialize (Hconsole ev Hev).
    split; [exact Hconsole|]. split; intros; intros ->; done. }
  split; [|exact Hprinted].
  intros st0 Hread. split; [by rewrite Hfile|]. by apply Hstate.
Qed.

Lemma dry_run_prints_without_publishing_witness :
  process_entry sample_world dry_args sample_feed entry_second
    {| newest_post := 0%N; dupes := LList []; out := []; draws := 0 |}
  = ({| newest_post := 2000000%N; dupes := LList [];
        out := [Print "Hello https://example.org/2"]; draws := 0 |}, None) ∧
  file (main sample_world dry_args [gallery_feed; sample_feed] None).1 = None ∧
  posted (log (main sample_world dry_args [gallery_feed; sample_feed] None).1) = [] ∧
  Print "Hello https://example.org/1"
    ∈ log (main sample_world dry_args [gallery_feed; sample_feed] None).1.
Proof.
  assert (dry_run dry_args = true) as Hdry by reflexivity.
  destruct (dry_run_prints_without_publishing sample_world dry_args
              [gallery_feed; sample_feed] None Hdry)
    as (Hentry & Hfile & Hposted & _ & _ & Hprinted).
  split; [|split; [exact Hfile|split; [exact Hposted|]]].
  - exact (Hentry sample_feed entry_second
             {| newest_post := 0%N; dupes := LList []; out := []; draws := 0 |}
             "Hello https://example.org/2" eq_refl).
  - apply (Hprinted eq_refl {| st_updated := ∅; st_dupecheck := DMap ∅ |} sample_feed
             [entry_first; entry_second] entry_first).
    + reflexivity.
    + apply list_elem_of_further, list_elem_of_here.
    + reflexivity.
    + apply list_elem_of_here.
    + reflexivity.
Defined.






